(** * DeepPDF-Summarizer: the chunking and synthesis pipeline

    A shallow embedding of [PDFProcessor.merge_text_and_images] and of
    [APIClient] ([_split_text_into_chunks], [_send_api_request],
    [summarize_text]) from [pdf-reader-text-image-version5.py], with the
    properties the specification states about them; and of the rest of
    [PDFProcessor] ([extract_text], [extract_image_text], [process]), of
    [Application.parse_ocr_pages] and of [ConfigManager], with further
    properties of the code.

    Python values are modelled as follows.
    - [str] is a list of Unicode code points ([N]); [len] is a [Z].
    - indices and positions are [Z], since the source works with the
      sentinel [-1] that [str.rfind] returns.
    - a [dict] keyed by page index is a [gmap Z str].
    - the [while] loop of the splitter runs on fuel; enough fuel is the
      length of the text ([while_loop_spec]).
    - exceptions are values of the type [exn]; a computation that may
      raise returns a [pyres].
    - a computation with effects maps the events of the run so far to an
      outcome and the events after it; the network is a function from
      the events so far and a request to what [requests.post] does.
    - a [set] of page numbers is a [gset Z], the configuration a
      [gmap] from keys to JSON values; the builtin [int] on strings and
      the configuration file are parameters.

    The file has three parts: the embedding, the vocabulary in which the
    properties are stated, and the facts. *)

From Stdlib Require Import ZArith NArith List Lia Ascii String Bool Decimal
  DecimalPos.
From stdpp Require Import base option list gmap sorting.
Import ListNotations.

#[local] Open Scope Z_scope.
#[local] Set Default Proof Using "Type".
#[local] Set Warnings "-register-all,-abstract-large-number".

(* ===================================================================== *)
(** ** Python strings *)
(* ===================================================================== *)

Module Py.

Abbreviation str := (list N).

(** A literal of the source, character by character. *)
Definition lit (s : string) : str :=
  List.map N_of_ascii (list_ascii_of_string s).
#[global] Arguments lit : simpl never.

(** The code point of ["\n"]. *)
Definition NL : N := 10%N.

Definition len (s : str) : Z := Z.of_nat (length s).

(** Truth value of a string: [if s:]. *)
Definition truthy (s : str) : bool :=
  match s with [] => false | _ :: _ => true end.

(** The code points [str.strip()] removes when called with no argument
    (CPython's [_PyUnicode_IsWhitespace]). *)
Definition isspace (c : N) : bool :=
  ((9 <=? c) && (c <=? 13) || (28 <=? c) && (c <=? 32)
   || (c =? 133) || (c =? 160) || (c =? 5760)
   || (8192 <=? c) && (c <=? 8202)
   || (c =? 8232) || (c =? 8233) || (c =? 8239) || (c =? 8287)
   || (c =? 12288))%N.

Fixpoint lstrip (s : str) : str :=
  match s with
  | [] => []
  | c :: s' => if isspace c then lstrip s' else s
  end.

Fixpoint rstrip (s : str) : str :=
  match s with
  | [] => []
  | c :: s' =>
      match rstrip s' with
      | [] => if isspace c then [] else [c]
      | r => c :: r
      end
  end.

(** [s.strip()] *)
Definition strip (s : str) : str := rstrip (lstrip s).

(** [s.startswith(p)] *)
Fixpoint startswith (s p : str) {struct p} : bool :=
  match p, s with
  | [], _ => true
  | _ :: _, [] => false
  | a :: p', b :: s' => (a =? b)%N && startswith s' p'
  end.

(** How a slice bound is brought into [0 .. len]. *)
Definition clamp_index (n i : Z) : Z :=
  if i <? 0 then Z.max (i + n) 0 else Z.min i n.

(** [s[a:b]] *)
Definition slice (s : str) (a b : Z) : str :=
  let a' := clamp_index (len s) a in
  let b' := clamp_index (len s) b in
  take (Z.to_nat (b' - a')) (drop (Z.to_nat a') s).

(** The highest [i < budget] at which [sub] is a prefix of [drop i s]. *)
Fixpoint rfind_rel (sub s : str) (budget : nat) {struct budget}
    : option nat :=
  match budget with
  | O => None
  | S b =>
      match (match s with [] => None | _ :: s' => rfind_rel sub s' b end) with
      | Some i => Some (S i)
      | None => if startswith s sub then Some O else None
      end
  end.

(** [s.rfind(sub, start, end)]: the highest index at which [sub] occurs
    inside [s[start:end]], or [-1]. The bounds are adjusted as CPython
    does: [end] is cut down to [len s], negative bounds count from the
    end. *)
Definition rfind (s sub : str) (start end_ : Z) : Z :=
  let n := len s in
  let e := if end_ >? n then n
           else if end_ <? 0 then Z.max (end_ + n) 0 else end_ in
  let st := if start <? 0 then Z.max (start + n) 0 else start in
  if e - st <? len sub then -1
  else
    match rfind_rel sub (drop (Z.to_nat st) s)
            (Z.to_nat (e - len sub - st + 1)) with
    | Some i => st + Z.of_nat i
    | None => -1
    end.

(** [sep.join(parts)] *)
Fixpoint join (sep : str) (parts : list str) : str :=
  match parts with
  | [] => []
  | [p] => p
  | p :: rest => p ++ sep ++ join sep rest
  end.

Fixpoint digits_of_uint (d : Decimal.uint) : str :=
  match d with
  | Decimal.Nil => []
  | Decimal.D0 d' => 48%N :: digits_of_uint d'
  | Decimal.D1 d' => 49%N :: digits_of_uint d'
  | Decimal.D2 d' => 50%N :: digits_of_uint d'
  | Decimal.D3 d' => 51%N :: digits_of_uint d'
  | Decimal.D4 d' => 52%N :: digits_of_uint d'
  | Decimal.D5 d' => 53%N :: digits_of_uint d'
  | Decimal.D6 d' => 54%N :: digits_of_uint d'
  | Decimal.D7 d' => 55%N :: digits_of_uint d'
  | Decimal.D8 d' => 56%N :: digits_of_uint d'
  | Decimal.D9 d' => 57%N :: digits_of_uint d'
  end.

(** [str(z)] of an integer, as an f-string formats it. *)
Definition str_of_int (z : Z) : str :=
  match z with
  | Z0 => lit "0"
  | Zpos p => digits_of_uint (Pos.to_uint p)
  | Zneg p => lit "-" ++ digits_of_uint (Pos.to_uint p)
  end.

Definition str_of_nat (n : nat) : str := str_of_int (Z.of_nat n).

(** [a == b] on strings. *)
Fixpoint str_eqb (a b : str) : bool :=
  match a, b with
  | [], [] => true
  | x :: a', y :: b' => (x =? y)%N && str_eqb a' b'
  | _, _ => false
  end.

(** [sub in s] *)
Fixpoint occurs (sub s : str) : bool :=
  startswith s sub
  || match s with [] => false | _ :: s' => occurs sub s' end.

(** The characters of [s] that are not white space, in order. *)
Definition nonspace (s : str) : str :=
  List.filter (fun c => negb (isspace c)) s.

End Py.

Import Py.

(* ===================================================================== *)
(** ** PDFProcessor.merge_text_and_images *)
(* ===================================================================== *)

Module PDFProcessor.

(** What one turn of the [for] loop appends to [merged_text] for page
    [i] (0-based) with text [page_content]. *)
Definition page_block (image_text_dict : gmap Z str)
    (i : nat) (page_content : str) : str :=
  lit "--- Page " ++ str_of_nat (i + 1) ++ lit " ---" ++ [NL]
    ++ page_content ++ [NL]
    ++ (match image_text_dict !! Z.of_nat i with
        | Some t =>
            if truthy (strip t)
            then [NL] ++ lit "[Image Text Extracted via OCR on Page "
                   ++ str_of_nat (i + 1) ++ lit "]" ++ [NL] ++ t ++ [NL]
            else []
        | None => []
        end)
    ++ [NL].

(** The loop over [enumerate(pdf_text_pages)], started at index [i]. *)
Fixpoint merge_loop (image_text_dict : gmap Z str) (i : nat)
    (pages : list str) (merged_text : str) : str :=
  match pages with
  | [] => merged_text
  | page_content :: rest =>
      merge_loop image_text_dict (S i) rest
        (merged_text ++ page_block image_text_dict i page_content)
  end.

Definition merge_text_and_images (pdf_text_pages : list str)
    (image_text_dict : gmap Z str) : str :=
  strip (merge_loop image_text_dict 0 pdf_text_pages []).

End PDFProcessor.

(* ===================================================================== *)
(** ** APIClient._split_text_into_chunks *)
(* ===================================================================== *)

Module Splitter.

Definition MAX_CHARS_PER_CHUNK : Z := 15000.

Definition page_sep : str := NL :: lit "--- Page".
Definition para_sep : str := [NL; NL].
Definition sentence_seps : list str :=
  [lit ". "; lit "! "; lit "? ";
   lit "." ++ [NL]; lit "!" ++ [NL]; lit "?" ++ [NL]].

(** One turn of [for sep in ...] over the sentence separators. *)
Definition sentence_step (text : str) (current_pos end_pos : Z)
    (sentence_break : Z) (sep : str) : Z :=
  let found := rfind text sep current_pos end_pos in
  if (found >? current_pos) && (found >? sentence_break)
  then found + 1 else sentence_break.

(** The value of [best_split] after the block guarded by
    [if end_pos < text_len]. *)
Definition best_split_of (text : str) (current_pos end_pos : Z) : Z :=
  let best_split := -1 in
  let page_break := rfind text page_sep current_pos end_pos in
  let best_split :=
    if page_break >? current_pos then page_break else best_split in
  let para_break := rfind text para_sep current_pos end_pos in
  let best_split :=
    if (para_break >? current_pos) && (para_break >? best_split)
    then para_break + 2 else best_split in
  if best_split =? -1 then
    let sentence_break :=
      fold_left (sentence_step text current_pos end_pos)
        sentence_seps (-1) in
    if sentence_break >? current_pos then sentence_break else best_split
  else best_split.

(** [split_pos] as it stands when the chunk is cut. *)
Definition split_pos_of (text : str) (current_pos : Z) : Z :=
  let text_len := len text in
  let end_pos := Z.min (current_pos + MAX_CHARS_PER_CHUNK) text_len in
  if end_pos <? text_len then
    let best_split := best_split_of text current_pos end_pos in
    if best_split >? current_pos then best_split else end_pos
  else end_pos.

Record loop_state := mk_state { chunks : list str; current_pos : Z }.

(** How a turn of the [while] loop ends: at a [break], or at the end of
    the body. *)
Inductive turn := Break (st : loop_state) | Next (st : loop_state).

Definition state_of (t : turn) : loop_state :=
  match t with Break st | Next st => st end.

(** [if chunk: chunks.append(chunk)] *)
Definition append_chunk (chunks : list str) (chunk : str) : list str :=
  if truthy chunk then chunks ++ [chunk] else chunks.

(** The body of the [while] loop. *)
Definition loop_body (text : str) (st : loop_state) : turn :=
  let text_len := len text in
  let end_pos := Z.min (current_pos st + MAX_CHARS_PER_CHUNK) text_len in
  let split_pos := split_pos_of text (current_pos st) in
  let chunk := strip (slice text (current_pos st) split_pos) in
  let chunks := append_chunk (chunks st) chunk in
  let current_pos := split_pos in
  if (current_pos =? end_pos) && (end_pos =? text_len)
  then Break (mk_state chunks current_pos)
  else if current_pos >=? text_len
  then Break (mk_state chunks current_pos)
  else if (split_pos <=? current_pos) && (current_pos <? text_len) then
    let force_end := Z.min (current_pos + MAX_CHARS_PER_CHUNK) text_len in
    let chunk := strip (slice text current_pos force_end) in
    let chunks := append_chunk chunks chunk in
    Next (mk_state chunks force_end)
  else Next (mk_state chunks current_pos).

(** The [while current_pos < text_len] loop, run for at most [fuel]
    turns. The result is the final state and the number of turns
    taken; [None] when the fuel did not suffice. *)
Fixpoint while_loop (text : str) (fuel : nat) (st : loop_state)
    : option (loop_state * nat) :=
  if current_pos st <? len text then
    match fuel with
    | O => None
    | S fuel' =>
        match loop_body text st with
        | Break st' => Some (st', 1%nat)
        | Next st' =>
            match while_loop text fuel' st' with
            | Some (st'', n) => Some (st'', S n)
            | None => None
            end
        end
    end
  else Some (st, 0%nat).

(** The function with an explicit bound on the turns of its loop. *)
Definition split_with_fuel (fuel : nat) (text : str)
    : option (list str) :=
  if negb (truthy text) || (len text <=? MAX_CHARS_PER_CHUNK) then
    Some (if truthy text then [text] else [])
  else
    match while_loop text fuel (mk_state [] 0) with
    | Some (st, _) => Some (List.filter truthy (chunks st))
    | None => None
    end.

(** [APIClient._split_text_into_chunks]. The loop is given one turn per
    character of the text, which always suffices ([while_loop_spec]). *)
Definition _split_text_into_chunks (text : str) : option (list str) :=
  split_with_fuel (length text) text.

End Splitter.

Import Splitter.

(** A text in which none of the separators the splitter looks for occurs
    anywhere. *)
Definition marker_free (text : str) : bool :=
  forallb (fun sep => negb (occurs sep text))
    (page_sep :: para_sep :: sentence_seps).

(* ===================================================================== *)
(** ** APIClient._send_api_request and APIClient.summarize_text *)
(* ===================================================================== *)

Module APIClient.

Definition MAX_COMBINED_SUMMARY_CHARS : Z := 20000.

(** *** Values, exceptions and effects *)

(** What [response.json()] returns. A [dict] is kept as the list of its
    items; a lookup takes the first item with the key. A float is kept
    as mantissa and decimal exponent: only its truth value is used. *)
Inductive json :=
| JNull
| JBool (b : bool)
| JInt (z : Z)
| JFloat (mantissa exponent : Z)
| JStr (s : str)
| JList (l : list json)
| JDict (d : list (str * json)).

(** An HTTP response: its status, its body as text, and what
    [response.json()] does. [json()] returns the parsed body or raises:
    [JSONDecodeError] for a body that is not JSON, and whatever else the
    parser raises, as [RecursionError] for a body that is nested too
    deeply.

    The exceptions of the run all derive from [Exception]. The argument
    is [str(err)]. [JSONDecodeError] is the one of [requests], which
    derives from [RequestException] and from [json.JSONDecodeError];
    [RequestException] stands for the instances of that class that
    belong to none of the three classes before it; [OtherException]
    stands for the classes that no clause of the source names, as
    [RecursionError]. An [HTTPError] carries its response. *)
Inductive response :=
| mk_response (status_code : Z) (text : str) (json_body : json_outcome)
with json_outcome :=
| JsonValue (v : json)
| JsonRaises (e : exn)
with exn :=
| Timeout (msg : str)
| HTTPError (msg : str) (r : response)
| JSONDecodeError (msg : str)
| RequestException (msg : str)
| KeyError (msg : str)
| ValueError (msg : str)
| AttributeError (msg : str)
| TypeError (msg : str)
| IndexError (msg : str)
| OtherException (msg : str).

Definition status_code (r : response) : Z :=
  match r with mk_response status_code _ _ => status_code end.

Definition text (r : response) : str :=
  match r with mk_response _ text _ => text end.

Definition json_body (r : response) : json_outcome :=
  match r with mk_response _ _ json_body => json_body end.

(** The outcome of a Python computation. [Stuck] is the outcome of the
    model when the bound on the splitter's loop does not suffice, which
    never happens ([split_total]). *)
Inductive pyres (A : Type) :=
| Return (a : A)
| Raise (e : exn)
| Stuck.
Arguments Return {A} a.
Arguments Raise {A} e.
Arguments Stuck {A}.

Definition rbind {A B} (c : pyres A) (k : A -> pyres B) : pyres B :=
  match c with
  | Return a => k a
  | Raise e => Raise e
  | Stuck => Stuck
  end.

(** The arguments of [requests.post]. *)
Record post_request := mk_post
  { url : str;
    authorization : str;
    content_type : str;
    model : str;
    messages : list (str * str);
    timeout : Z }.

Inductive post_result :=
| PostRaise (e : exn)
| PostReturn (r : response).

(** What a run does to the world, in order: it enters
    [_send_api_request], it posts a request, it sleeps. *)
Inductive event :=
| EvSend (prompt_content context_info : str)
| EvPost (rq : post_request)
| EvSleep (milliseconds : Z).

(** A computation with effects: from the events so far to an outcome
    and the events after it. *)
Definition M (A : Type) : Type := list event -> pyres A * list event.

Definition ret {A} (a : A) : M A := fun tr => (Return a, tr).

Definition bind {A B} (c : M A) (k : A -> M B) : M B :=
  fun tr =>
    match c tr with
    | (Return a, tr') => k a tr'
    | (Raise e, tr') => (Raise e, tr')
    | (Stuck, tr') => (Stuck, tr')
    end.

Definition lift {A} (c : pyres A) : M A := fun tr => (c, tr).

Definition emit (ev : event) : M unit := fun tr => (Return tt, tr ++ [ev]).

(** [try: body  except ...: handler] *)
Definition try_except {A} (body : M A) (handler : exn -> option (M A))
    : M A :=
  fun tr =>
    match body tr with
    | (Raise e, tr') =>
        match handler e with
        | Some h => h tr'
        | None => (Raise e, tr')
        end
    | other => other
    end.

Declare Scope py_scope.
Delimit Scope py_scope with py.
Notation "'let*' x ':=' c 'in' k" := (bind c (fun x => k))
  (at level 10, x name, c at level 100, k at level 200) : py_scope.
Notation "'let+' x ':=' c 'in' k" := (rbind c (fun x => k))
  (at level 10, x name, c at level 100, k at level 200) : py_scope.
Notation "c ';;' k" := (bind c (fun _ => k))
  (at level 100, k at level 200, right associativity) : py_scope.
#[local] Open Scope py_scope.

(** *** The operations of Python on the parsed response *)

(** [bool(v)] *)
Definition json_truthy (v : json) : bool :=
  match v with
  | JNull => false
  | JBool b => b
  | JInt z => negb (z =? 0)
  | JFloat m _ => negb (m =? 0)
  | JStr s => truthy s
  | JList l => match l with [] => false | _ => true end
  | JDict d => match d with [] => false | _ => true end
  end.

Fixpoint dict_lookup (d : list (str * json)) (key : str) : option json :=
  match d with
  | [] => None
  | (k, v) :: d' => if str_eqb k key then Some v else dict_lookup d' key
  end.

Section Client.

(** The network: what [requests.post] does with a request, given all
    that happened before. *)
Variable net : list event -> post_request -> post_result.

(** [str(v)] of a parsed value, as an f-string formats it. *)
Variable json_str : json -> str.

(** The message of an exception that [requests] raises on a response:
    the name of the method that raises, and the response. *)
Variable response_error_msg : str -> response -> str.

(** The message of an exception the interpreter raises on a value:
    the name of the operation and the value it was applied to. *)
Variable runtime_msg : str -> json -> str.

(** [key in v] for a string [key] *)
Definition py_contains (key : str) (v : json) : pyres bool :=
  match v with
  | JDict d =>
      Return (match dict_lookup d key with Some _ => true | None => false end)
  | JList l =>
      Return (existsb (fun x =>
                 match x with JStr s => str_eqb s key | _ => false end) l)
  | JStr s => Return (occurs key s)
  | _ => Raise (TypeError (runtime_msg (lit "in") v))
  end.

(** [v[key]] for a string [key] *)
Definition py_getitem (v : json) (key : str) : pyres json :=
  match v with
  | JDict d =>
      match dict_lookup d key with
      | Some x => Return x
      | None => Raise (KeyError (runtime_msg (lit "getitem") v))
      end
  | _ => Raise (TypeError (runtime_msg (lit "getitem") v))
  end.

(** [v[0]] *)
Definition py_getitem0 (v : json) : pyres json :=
  match v with
  | JList (x :: _) => Return x
  | JList [] => Raise (IndexError (runtime_msg (lit "getitem") v))
  | JStr (c :: _) => Return (JStr [c])
  | JStr [] => Raise (IndexError (runtime_msg (lit "getitem") v))
  | JDict _ => Raise (KeyError (runtime_msg (lit "getitem") v))
  | _ => Raise (TypeError (runtime_msg (lit "getitem") v))
  end.

(** [v.get(key, default)] *)
Definition py_get (v : json) (key : str) (default : json) : pyres json :=
  match v with
  | JDict d =>
      Return (match dict_lookup d key with Some x => x | None => default end)
  | _ => Raise (AttributeError (runtime_msg (lit "get") v))
  end.

(** [v.strip()] *)
Definition py_strip (v : json) : pyres str :=
  match v with
  | JStr s => Return (strip s)
  | _ => Raise (AttributeError (runtime_msg (lit "strip") v))
  end.

(** [v == s] for a string literal [s] *)
Definition json_eq_str (v : json) (s : str) : bool :=
  match v with JStr t => str_eqb t s | _ => false end.

(** [requests.post(...)] *)
Definition post (rq : post_request) : M response :=
  fun tr =>
    match net tr rq with
    | PostRaise e => (Raise e, tr ++ [EvPost rq])
    | PostReturn r => (Return r, tr ++ [EvPost rq])
    end.

(** [response.raise_for_status()] *)
Definition raise_for_status (r : response) : pyres unit :=
  if (400 <=? status_code r) && (status_code r <? 600)
  then Raise (HTTPError (response_error_msg (lit "raise_for_status") r) r)
  else Return tt.

(** [response.json()] *)
Definition response_json (r : response) : pyres json :=
  match json_body r with
  | JsonValue v => Return v
  | JsonRaises e => Raise e
  end.

(** *** _send_api_request *)

(** The condition of [if response_data and 'choices' in response_data
    and response_data['choices']]. *)
Definition has_choices (response_data : json) : pyres bool :=
  if negb (json_truthy response_data) then Return false
  else
    let+ present := py_contains (lit "choices") response_data in
    if negb present then Return false
    else
      let+ choices := py_getitem response_data (lit "choices") in
      Return (json_truthy choices).

(** The statements of the [try] block after the response is parsed. *)
Definition read_response (response_data : json) : pyres str :=
  let+ ok := has_choices response_data in
  if ok then
    let+ choices := py_getitem response_data (lit "choices") in
    let+ choice := py_getitem0 choices in
    let+ message := py_get choice (lit "message") (JDict []) in
    let+ content := py_get message (lit "content") JNull in
    if json_truthy content then py_strip content
    else
      let+ choices := py_getitem response_data (lit "choices") in
      let+ choice := py_getitem0 choices in
      let+ finish_reason := py_get choice (lit "finish_reason") JNull in
      if json_eq_str finish_reason (lit "content_filter") then
        Return (lit "Error: API response filtered due to content policy.")
      else if json_eq_str finish_reason (lit "length") then
        Return (lit "Error: API response truncated due to length limits. Consider reducing chunk size or summary detail.")
      else
        Return (lit "Error: API returned empty content (Finish Reason: "
                  ++ json_str finish_reason ++ lit ").")
  else
    Return (lit "Error: Unexpected API response format. Data: "
              ++ json_str response_data).

(** The request built from the prompt. *)
Definition request_of (api_key prompt_content context_info : str)
    : post_request :=
  let full_prompt :=
    strip (context_info ++ [NL; NL] ++ prompt_content) in
  {| url := lit "https://api.deepseek.com/v1/chat/completions";
     authorization := lit "Bearer " ++ api_key;
     content_type := lit "application/json";
     model := lit "deepseek-chat";
     messages := [(lit "user", full_prompt)];
     timeout := 180 |}.

(** The [try] block. *)
Definition try_block (api_key prompt_content context_info : str)
    : M str :=
  let* response := post (request_of api_key prompt_content context_info) in
  let* _ := lift (raise_for_status response) in
  let* response_data := lift (response_json response) in
  lift (read_response response_data).

(** The handler of [except requests.exceptions.HTTPError as err]. What
    [err.response.json()] raises, other than a [JSONDecodeError], is
    raised by the handler: no clause of the [try] statement catches
    it. *)
Definition on_http_error (msg : str) (r : response) : M str :=
  let error_detail := lit "Status Code: " ++ str_of_int (status_code r) in
  let* error_detail :=
    try_except
      (let* error_body := lift (response_json r) in
       ret (error_detail ++ lit ", Response: " ++ json_str error_body))
      (fun e =>
         match e with
         | JSONDecodeError _ =>
             Some (ret (error_detail ++ lit ", Response: " ++ text r))
         | _ => None
         end) in
  ret (lit "Error: HTTP Error: " ++ msg ++ lit ". " ++ error_detail).

(** The [except] clauses, in the order of the source: the first one
    whose class the exception belongs to is taken. *)
Definition on_exception (e : exn) : option (M str) :=
  match e with
  | Timeout _ =>
      Some (ret (lit "Error: Request timed out. Check connection or increase timeout."))
  | HTTPError msg r => Some (on_http_error msg r)
  | JSONDecodeError msg | RequestException msg =>
      Some (ret (lit "Error: Network or Request Error: " ++ msg))
  | KeyError msg | ValueError msg | AttributeError msg =>
      Some (ret (lit "Error: Could not parse API response: " ++ msg))
  | TypeError msg | IndexError msg | OtherException msg =>
      Some (ret (lit "Error: An unexpected error occurred: " ++ msg))
  end.

(** [if not self.api_key]: the key is [None] or the empty string. *)
Definition key_missing (api_key : option str) : bool :=
  match api_key with
  | Some k => negb (truthy k)
  | None => true
  end.

(** The key as [f'Bearer {self.api_key}'] formats it, once it is
    known not to be missing. *)
Definition key_text (api_key : option str) : str :=
  match api_key with Some k => k | None => [] end.

Definition _send_api_request (api_key : option str)
    (prompt_content context_info : str) : M str :=
  emit (EvSend prompt_content context_info) ;;
  if key_missing api_key
  then ret (lit "Error: API Key not provided to APIClient.")
  else try_except
         (try_block (key_text api_key) prompt_content context_info)
         on_exception.

(** *** summarize_text

    The status callback is the default [None], and what the source
    prints is left out: neither changes the result or the requests. *)

Definition skip_prefix : str :=
  lit "--- Combined Section Summaries (Final Synthesis Skipped Due to Length or Chunk Errors) ---"
    ++ [NL; NL].

Definition summaries_sep : str := [NL; NL] ++ lit "---" ++ [NL; NL].

Definition chunk_context (chunk_num num_chunks : nat) : str :=
  lit "You are summarizing part " ++ str_of_nat chunk_num ++ lit " of "
    ++ str_of_nat num_chunks ++ lit " from a larger document.".

Definition chunk_prompt (custom_instruction chunk : str) : str :=
  custom_instruction ++ [NL; NL]
    ++ lit "Please summarize this section of the document:"
    ++ [NL; NL] ++ chunk.

Definition single_prompt (custom_instruction chunk : str) : str :=
  custom_instruction ++ [NL; NL]
    ++ lit "Please summarize the following text:" ++ [NL; NL] ++ chunk.

Definition final_prompt (custom_instruction combined_summaries_text : str)
    : str :=
  lit "The following are summaries of consecutive sections of a document. "
    ++ lit "Synthesize them into a single, coherent, and comprehensive summary of the entire document, "
    ++ lit "maintaining a consistent tone and flow." ++ [NL; NL]
    ++ lit "The original high-level instruction for the summary was: '"
    ++ custom_instruction ++ lit "'" ++ [NL; NL]
    ++ lit "--- Individual Section Summaries to Combine ---" ++ [NL]
    ++ combined_summaries_text.

(** The entry a chunk leaves in [chunk_summaries], from the result of
    its request. *)
Definition summary_entry (chunk_num : nat) (chunk_summary : str) : str :=
  if startswith chunk_summary (lit "Error:")
  then lit "[Error summarizing chunk " ++ str_of_nat chunk_num
         ++ lit ": " ++ chunk_summary ++ lit "]"
  else chunk_summary.

(** The loop [for i, chunk in enumerate(chunks)], from index [i] on;
    it yields [chunk_summaries] and [has_errors]. *)
Fixpoint chunk_loop (api_key : option str) (custom_instruction : str)
    (num_chunks i : nat) (chunks : list str)
    (chunk_summaries : list str) (has_errors : bool)
    : M (list str * bool) :=
  match chunks with
  | [] => ret (chunk_summaries, has_errors)
  | chunk :: rest =>
      let chunk_num := (i + 1)%nat in
      let context_info := chunk_context chunk_num num_chunks in
      let prompt := chunk_prompt custom_instruction chunk in
      let* chunk_summary :=
        _send_api_request api_key prompt context_info in
      let chunk_summaries :=
        chunk_summaries ++ [summary_entry chunk_num chunk_summary] in
      let has_errors :=
        if startswith chunk_summary (lit "Error:")
        then true else has_errors in
      emit (EvSleep 500) ;;
      chunk_loop api_key custom_instruction num_chunks (S i) rest
        chunk_summaries has_errors
  end.

Definition summarize_text (api_key : option str)
    (text custom_instruction : str) : M str :=
  if negb (truthy text) || negb (truthy (strip text))
  then ret (lit "Error: No text provided to summarize.")
  else
    match _split_text_into_chunks text with
    | None => lift Stuck
    | Some chunks =>
        let num_chunks := length chunks in
        match chunks with
        | [] =>
            ret (lit "Error: Text resulted in zero valid chunks after splitting.")
        | [chunk] =>
            _send_api_request api_key
              (single_prompt custom_instruction chunk) []
        | _ =>
            let* r :=
              chunk_loop api_key custom_instruction num_chunks 0
                chunks [] false in
            let chunk_summaries := fst r in
            let has_errors := snd r in
            if negb (match chunk_summaries with [] => false | _ => true end)
            then ret (lit "Error: Failed to get summaries for any chunk.")
            else
              let combined_summaries_text :=
                join summaries_sep chunk_summaries in
              if (len combined_summaries_text
                    >? MAX_COMBINED_SUMMARY_CHARS) || has_errors
              then ret (skip_prefix ++ combined_summaries_text)
              else
                _send_api_request api_key
                  (final_prompt custom_instruction
                     combined_summaries_text) []
        end
    end.

End Client.

End APIClient.

Import APIClient.

(* ===================================================================== *)
(** ** The vocabulary of the specification *)
(* ===================================================================== *)

(** *** Strings and chunks *)

(** A string that does not start with white space. *)
Definition clean_head (s : str) : Prop :=
  match s with [] => True | c :: _ => isspace c = false end.

(** The chunks of a state are the trimmed, non-empty pieces of a cutting
    of the text up to the cursor, each piece within the budget. *)
Definition covers (text : str) (st : loop_state) : Prop :=
  0 <= current_pos st <= len text
  /\ exists pieces,
       concat pieces = take (Z.to_nat (current_pos st)) text
       /\ chunks st = List.filter truthy (List.map strip pieces)
       /\ Forall (fun p => len p <= MAX_CHARS_PER_CHUNK) pieces.

(** [c] is [p] with white space taken off its two ends. *)
Definition trimmed_of (p c : str) : Prop :=
  exists w1 w2,
    p = w1 ++ c ++ w2 /\ forallb isspace w1 = true /\ forallb isspace w2 = true.

(** [chunking pieces chunks]: the chunks are, in order, the pieces with
    white space taken off their ends; a piece without a chunk is white
    space only. *)
Inductive chunking : list str -> list str -> Prop :=
| chunking_nil : chunking [] []
| chunking_keep p c ps cs :
    trimmed_of p c -> chunking ps cs -> chunking (p :: ps) (c :: cs)
| chunking_drop p ps cs :
    forallb isspace p = true -> chunking ps cs -> chunking (p :: ps) cs.

(** [ceil(a / b)] for positive [b]. *)
Definition ceil_div (a b : Z) : Z := (a + b - 1) / b.

(** *** Requests and runs *)

(** The content of a parsed response that carries one: an object whose
    ["choices"] is a list, the first choice an object whose ["message"]
    is an object with a non-empty string as ["content"]. *)
Definition content_of_json (v : json) : option str :=
  match v with
  | JDict d =>
      match dict_lookup d (lit "choices") with
      | Some (JList (JDict choice :: _)) =>
          match dict_lookup choice (lit "message") with
          | Some (JDict message) =>
              match dict_lookup message (lit "content") with
              | Some (JStr s) => if truthy s then Some s else None
              | _ => None
              end
          | _ => None
          end
      | _ => None
      end
  | _ => None
  end.

(** The content of what came back from the network, when it is a
    response with a status outside 400..599, a body that is JSON, and
    content in it. *)
Definition content_of_result (res : post_result) : option str :=
  match res with
  | PostRaise _ => None
  | PostReturn r =>
      if (400 <=? status_code r) && (status_code r <? 600) then None
      else
        match json_body r with
        | JsonValue v => content_of_json v
        | JsonRaises _ => None
        end
  end.

(** The exception that leaves the handler of [HTTPError] for the
    response [r]: what [r.json()] raises, unless it is a
    [JSONDecodeError]. *)
Definition handler_escape (r : response) : option exn :=
  match json_body r with
  | JsonRaises (JSONDecodeError _) => None
  | JsonRaises e => Some e
  | JsonValue _ => None
  end.

(** The exception that leaves the [except] clauses when they handle
    [e]: only the handler of [HTTPError] lets one out. *)
Definition clause_escape (e : exn) : option exn :=
  match e with
  | HTTPError _ r => handler_escape r
  | _ => None
  end.

(** The exception that leaves [_send_api_request] for what came back
    from the network, if any: the one that leaves the handler of the
    [HTTPError] that [requests.post], [raise_for_status] or [json()]
    raised. *)
Definition escape_of (res : post_result) : option exn :=
  match res with
  | PostRaise e => clause_escape e
  | PostReturn r =>
      if (400 <=? status_code r) && (status_code r <? 600)
      then handler_escape r
      else
        match json_body r with
        | JsonRaises e => clause_escape e
        | JsonValue _ => None
        end
  end.

(** The events one call of [_send_api_request] adds to the run. *)
Definition call_events (api_key : option str)
    (prompt_content context_info : str) : list event :=
  EvSend prompt_content context_info
    :: (if key_missing api_key then []
        else [EvPost (request_of (key_text api_key) prompt_content
                        context_info)]).


Definition is_error (s : str) : bool := startswith s (lit "Error:").

(** The calls of [_send_api_request] in a run, in order. *)
Fixpoint sends (tr : list event) : list (str * str) :=
  match tr with
  | [] => []
  | EvSend p c :: tr' => (p, c) :: sends tr'
  | _ :: tr' => sends tr'
  end.

(** The requests posted in a run, in order. *)
Fixpoint posts (tr : list event) : list post_request :=
  match tr with
  | [] => []
  | EvPost rq :: tr' => rq :: posts tr'
  | _ :: tr' => posts tr'
  end.

(** The entries of [chunk_summaries] for the replies of the chunks. *)
Definition entries (replies : list str) : list str :=
  imap (fun j r => summary_entry (j + 1) r) replies.

Section Replay.

Variable net : list event -> post_request -> post_result.
Variable json_str : json -> str.
Variable response_error_msg : str -> response -> str.
Variable runtime_msg : str -> json -> str.
Variable api_key : option str.
Variable custom_instruction : str.

(** What a call made after the events [tr] returns, when it returns. *)
Definition reply (prompt_content context_info : str) (tr : list event)
    : str :=
  match fst (_send_api_request net json_str response_error_msg runtime_msg
               api_key prompt_content context_info tr) with
  | Return s => s
  | _ => []
  end.

(** The call made after the events [tr] returns: no exception leaves
    [_send_api_request]. *)
Definition returns (prompt_content context_info : str) (tr : list event)
    : bool :=
  match fst (_send_api_request net json_str response_error_msg runtime_msg
               api_key prompt_content context_info tr) with
  | Return _ => true
  | _ => false
  end.

(** The events after the loop over the chunks, from index [i] on, when
    every call returns. *)
Fixpoint chunk_trace (num_chunks i : nat) (chunks : list str)
    (tr : list event) : list event :=
  match chunks with
  | [] => tr
  | chunk :: rest =>
      chunk_trace num_chunks (S i) rest
        ((tr ++ call_events api_key (chunk_prompt custom_instruction chunk)
                  (chunk_context (i + 1) num_chunks))
           ++ [EvSleep 500])
  end.

(** The replies to the requests of the loop, in order. *)
Fixpoint chunk_replies (num_chunks i : nat) (chunks : list str)
    (tr : list event) : list str :=
  match chunks with
  | [] => []
  | chunk :: rest =>
      reply (chunk_prompt custom_instruction chunk)
        (chunk_context (i + 1) num_chunks) tr
      :: chunk_replies num_chunks (S i) rest
           (chunk_trace num_chunks i [chunk] tr)
  end.

(** Every call of the loop returns. *)
Fixpoint chunk_calls_return (num_chunks i : nat) (chunks : list str)
    (tr : list event) : bool :=
  match chunks with
  | [] => true
  | chunk :: rest =>
      returns (chunk_prompt custom_instruction chunk)
        (chunk_context (i + 1) num_chunks) tr
      && chunk_calls_return num_chunks (S i) rest
           (chunk_trace num_chunks i [chunk] tr)
  end.

End Replay.

(** *** Sample texts and runs *)

(** A text with a page marker right after its start, then a paragraph
    break, then more than a window of plain characters. *)
Definition page_then_paragraph : str :=
  lit "a" ++ page_sep ++ lit "bbbbbbbbbb" ++ para_sep ++ repeat 99%N 15000.

(** A text whose first window has no separator and whose second window
    starts just before a page marker. *)
Definition page_after_hard_cut : str :=
  repeat 99%N 15000 ++ lit "x" ++ page_sep ++ repeat 100%N 20000.

(** A response with status 200 whose body carries [content]. *)
Definition response_with (content : str) : post_result :=
  PostReturn
    (mk_response 200 []
       (JsonValue
          (JDict
             [(lit "choices",
               JList
                 [JDict
                    [(lit "message",
                      JDict [(lit "content", JStr content)])]])]))).

(** A network that answers every request with [content]. *)
Definition net_content (content : str)
    : list event -> post_request -> post_result :=
  fun _ _ => response_with content.

(** A network on which every request times out. *)
Definition net_timeout : list event -> post_request -> post_result :=
  fun _ _ => PostRaise (Timeout (lit "timed out")).

(** What [json()] raises for a body that is nested too deeply. *)
Definition recursion_error : exn :=
  OtherException
    (lit "maximum recursion depth exceeded while decoding a JSON array from a unicode string").

(** A response with status 500 whose body is an array nested so deeply
    that [json()] raises [RecursionError]. *)
Definition nested_error_response : response :=
  mk_response 500 (repeat 91%N 2000 ++ repeat 93%N 2000)
    (JsonRaises recursion_error).

(** A network that answers every request with that response. *)
Definition net_nested_error : list event -> post_request -> post_result :=
  fun _ _ => PostReturn nested_error_response.

Definition plain_json_str : json -> str := fun _ => lit "{...}".
Definition plain_response_msg : str -> response -> str := fun m _ => m.
Definition plain_runtime_msg : str -> json -> str := fun op _ => op.

(** A text one character over the budget: two chunks. *)
Definition two_chunk_text : str := repeat 120%N 15001.
Definition two_chunks : list str := [repeat 120%N 15000; [120%N]].

Definition sample_key : option str := Some (lit "sk-test").
Definition sample_instruction : str := lit "Summarize briefly".


Definition timeout_reply : str :=
  lit "Error: Request timed out. Check connection or increase timeout.".

(** *** Tactics *)

(** Unfolds one layer of the operations on a parsed response, leaving
    the literals of the source as they are. *)
Ltac read_step :=
  cbn [rbind negb json_truthy py_contains py_getitem py_getitem0 py_get
       py_strip truthy content_of_json].

(** Closes the three branches on [finish_reason]. *)
Ltac read_finish :=
  cbn [rbind py_get];
  repeat match goal with
    | |- context [json_eq_str ?a ?b] => destruct (json_eq_str a b)
    end; reflexivity.

(** Decides a closed equation or comparison by evaluation, without
    writing the evaluated terms into the proof. *)
Ltac by_vm :=
  lazymatch goal with
  | |- @eq ?T ?l ?r => vm_cast_no_check (@eq_refl T r)
  | |- Z.lt ?a ?b => change ((a ?= b) = Lt); vm_cast_no_check (@eq_refl comparison Lt)
  | |- Z.le ?a ?b => vm_compute; discriminate
  end.

(* ===================================================================== *)
(** ** Further vocabulary *)
(* ===================================================================== *)

(** The [k]-th window of the text: [text[k*MAX : (k+1)*MAX]]. *)
Definition window (text : str) (k : nat) : str :=
  slice text (Z.of_nat k * MAX_CHARS_PER_CHUNK)
    ((Z.of_nat k + 1) * MAX_CHARS_PER_CHUNK).

(** The windows that cover the text, in order. *)
Definition windows (text : str) : list str :=
  List.map (window text)
    (seq 0 (Z.to_nat (ceil_div (len text) MAX_CHARS_PER_CHUNK))).

(** A text without white space. *)
Definition no_space (s : str) : bool :=
  forallb (fun c => negb (isspace c)) s.

(** The chunks of the windows with the numbers in [ks]. *)
Definition window_chunks (text : str) (ks : list nat) : list str :=
  List.filter truthy (List.map strip (List.map (window text) ks)).



Definition missing_key_reply : str :=
  lit "Error: API Key not provided to APIClient.".





(** What the [except] clauses of [_send_api_request] make of an
    exception, after the events [tr]. *)
Definition handled (json_str : json -> str)
    (e : exn) (tr : list event) : pyres str * list event :=
  match on_exception json_str e with
  | Some h => h tr
  | None => (Raise e, tr)
  end.

(* ===================================================================== *)
(** ** PDFProcessor.extract_text, extract_image_text and process *)
(* ===================================================================== *)

Module PDFPages.

#[local] Open Scope py_scope.

(** What OCR makes of one image of a page: the text that
    [pytesseract.image_to_string] returns, or a failure of one of the
    four calls that lead to it, which the source catches and prints. *)
Inductive image :=
| ImageText (img_text : str)
| ImageFails.

(** A page as [fitz] gives it: what [page.get_text()] and
    [page.get_images(full=True)] do. *)
Record page := mk_page
  { get_text : pyres str;
    get_images : pyres (list image) }.

(** [str(e)] *)
Definition exn_msg (e : exn) : str :=
  match e with
  | Timeout msg | HTTPError msg _ | JSONDecodeError msg
  | RequestException msg | KeyError msg | ValueError msg
  | AttributeError msg | TypeError msg | IndexError msg
  | OtherException msg => msg
  end.

(** [try: body  except Exception as e: raise Exception(f"{what}{filename}: {e}")] *)
Definition reraise {A} (what filename : str) (body : pyres A) : pyres A :=
  match body with
  | Raise e =>
      Raise (OtherException (what ++ filename ++ lit ": " ++ exn_msg e))
  | other => other
  end.

Section Processor.

(** What [fitz.open(self.pdf_path)] does, each time it is called, and
    [self.filename]. *)
Variable fitz_open : pyres (list page).
Variable filename : str.

(** The loop of [extract_text] over the pages. *)
Fixpoint text_loop (pages : list page) (text_per_page : list str)
    : pyres (list str) :=
  match pages with
  | [] => Return text_per_page
  | p :: rest =>
      let+ t := get_text p in
      text_loop rest (text_per_page ++ [t])
  end.

Definition extract_text : pyres (list str) :=
  reraise (lit "Error extracting text from ") filename
    (let+ doc := fitz_open in text_loop doc []).

(** [pages_to_process]: all pages for [None], the page numbers inside
    the document for a list. *)
Definition pages_to_process (page_numbers : option (list Z))
    (num_pages : nat) : list Z :=
  match page_numbers with
  | None => List.map Z.of_nat (seq 0 num_pages)
  | Some l =>
      List.filter (fun p => (0 <=? p) && (p <? Z.of_nat num_pages)) l
  end.

(** The loop over the images of a page; it yields [text_from_images]. *)
Fixpoint image_loop (img_list : list image) (text_from_images : str) : str :=
  match img_list with
  | [] => text_from_images
  | ImageText img_text :: rest =>
      image_loop rest
        (if truthy (strip img_text)
         then text_from_images ++ img_text ++ [NL]
         else text_from_images)
  | ImageFails :: rest => image_loop rest text_from_images
  end.

(** [doc.load_page(page_num)] for a page number that is not negative. *)
Definition load_page (doc : list page) (page_num : Z) : pyres page :=
  match doc !! Z.to_nat page_num with
  | Some p => Return p
  | None => Raise (ValueError (lit "page not in document"))
  end.

(** The loop [for page_num in pages_to_process]. *)
Fixpoint page_loop (doc : list page) (pages : list Z)
    (text_from_images_per_page : gmap Z str) : pyres (gmap Z str) :=
  match pages with
  | [] => Return text_from_images_per_page
  | page_num :: rest =>
      let+ p := load_page doc page_num in
      let+ img_list := get_images p in
      match img_list with
      | [] => page_loop doc rest text_from_images_per_page
      | _ =>
          let text_from_images := image_loop img_list [] in
          page_loop doc rest
            (if truthy (strip text_from_images)
             then <[page_num := text_from_images]> text_from_images_per_page
             else text_from_images_per_page)
      end
  end.

Definition extract_image_text (page_numbers : option (list Z))
    : pyres (gmap Z str) :=
  reraise (lit "Error extracting image text from ") filename
    (let+ doc := fitz_open in
     let pages := pages_to_process page_numbers (length doc) in
     match pages with
     | [] => Return ∅
     | _ => page_loop doc pages ∅
     end).

(** [process(ocr_pages)]: [None] for all pages, a list for these pages,
    the empty list for no OCR. *)
Definition process (ocr_pages : option (list Z)) : pyres str :=
  let+ pdf_text_pages := extract_text in
  let+ image_text_dict :=
    match ocr_pages with
    | None => extract_image_text ocr_pages
    | Some (_ :: _) => extract_image_text ocr_pages
    | Some [] => Return ∅
    end in
  Return (PDFProcessor.merge_text_and_images pdf_text_pages image_text_dict).

End Processor.

End PDFPages.

Import PDFPages.

(** A document that opens and whose pages can all be read. *)
Definition readable (doc : list page) : Prop :=
  Forall (fun p => (exists t, get_text p = Return t)
                   /\ exists imgs, get_images p = Return imgs) doc.

(** The texts of the pages of a readable document. *)
Definition page_texts (doc : list page) : list str :=
  List.map (fun p => match get_text p with Return t => t | _ => [] end) doc.

(** The OCR text of a page, when it has one that is not blank. *)
Definition ocr_text (p : page) : option str :=
  match get_images p with
  | Return imgs =>
      if truthy (strip (image_loop imgs [])) then Some (image_loop imgs [])
      else None
  | _ => None
  end.

(** A page with text and one image whose OCR gives [t]. *)
Definition scanned_page (text t : str) : page :=
  {| get_text := Return text; get_images := Return [ImageFails; ImageText t] |}.

Definition sample_doc : list page :=
  [scanned_page (lit "one") (lit "first scan");
   scanned_page (lit "two") (lit "second scan")].

(** Whether a page number is asked for. *)
Definition selected (page_numbers : option (list Z)) (q : Z) : bool :=
  match page_numbers with
  | None => true
  | Some l => existsb (Z.eqb q) l
  end.

(** The OCR text of the page with the number [q], when [q] is a page of
    the document and the page has OCR text that is not blank. *)
Definition ocr_at (doc : list page) (q : Z) : option str :=
  if 0 <=? q then
    match doc !! Z.to_nat q with
    | Some p => ocr_text p
    | None => None
    end
  else None.


(** A document whose pages give their text; their images need not. *)
Definition texts_readable (doc : list page) : Prop :=
  Forall (fun p => exists t, get_text p = Return t) doc.

(** A page whose images cannot be listed. *)
Definition damaged_page (text : str) : page :=
  {| get_text := Return text;
     get_images := Raise (ValueError (lit "bad image list")) |}.

(* ===================================================================== *)
(** ** Application.parse_ocr_pages *)
(* ===================================================================== *)

Module Application.

#[local] Open Scope py_scope.

Definition COMMA : N := 44%N.
Definition HYPHEN : N := 45%N.

(** [s.split(sep)] for a separator of one character: the pieces between
    the occurrences of [sep], one more than there are occurrences. *)
Fixpoint split (sep : N) (s : str) : list str :=
  match s with
  | [] => [[]]
  | c :: s' =>
      if (c =? sep)%N then [] :: split sep s'
      else
        match split sep s' with
        | p :: rest => (c :: p) :: rest
        | [] => [[c]]
        end
  end.

(** [range(start, stop)] *)
Definition range (start stop : Z) : list Z := seqZ start (stop - start).

(** [sorted(list(pages))] *)
Definition sorted (pages : gset Z) : list Z :=
  merge_sort Z.le (elements pages).

Section Parser.

(** [int(s)] for a string [s]: the integer, or the message of the
    [ValueError] that [int] raises. The builtin is a parameter: nothing
    is assumed about the strings it takes. *)
Variable py_int : str -> str + Z.

Definition to_int (s : str) : pyres Z :=
  match py_int s with
  | inl msg => Raise (ValueError msg)
  | inr z => Return z
  end.

(** The body of the [try] statement for one part, from the set [pages]
    to the set after it. *)
Definition try_body (part : str) (pages : gset Z) : pyres (gset Z) :=
  if occurs (lit "-") part then
    match split HYPHEN part with
    | [first; second] =>
        let+ start := to_int first in
        let+ end_ := to_int second in
        if (start <? 0) || (end_ <? 0) then
          Raise (ValueError (lit "Page numbers cannot be negative."))
        else if start >? end_ then
          Raise (ValueError
                   (lit "Invalid range: start (" ++ str_of_int start
                    ++ lit ") > end (" ++ str_of_int end_ ++ lit ")"))
        else Return (pages ∪ list_to_set (range start (end_ + 1)))
    | _ => Raise (ValueError (lit "Range must be in 'start-end' format."))
    end
  else
    let+ page_num := to_int part in
    if page_num <? 0 then
      Raise (ValueError (lit "Page numbers cannot be negative."))
    else Return (pages ∪ {[ page_num ]}).

(** The message of the [ValueError] that the [except] clause raises. *)
Definition format_error (part error_detail : str) : str :=
  lit "Invalid page format '" ++ part ++ lit "': " ++ error_detail
  ++ lit ". Use numbers, commas, and hyphens (e.g., 0,1,5-8).".

(** [except ValueError as e: ...] *)
Definition except_value_error {A} (part : str) (body : pyres A) : pyres A :=
  match body with
  | Raise (ValueError msg) =>
      let error_detail :=
        if occurs (lit "invalid literal") msg
        then lit "contains non-numeric characters"
        else msg in
      Raise (ValueError (format_error part error_detail))
  | other => other
  end.

(** The loop [for part in parts]. *)
Fixpoint parts_loop (parts : list str) (pages : gset Z)
    : pyres (gset Z) :=
  match parts with
  | [] => Return pages
  | part :: rest =>
      let part := strip part in
      if negb (truthy part) then parts_loop rest pages
      else
        let+ pages := except_value_error part (try_body part pages) in
        parts_loop rest pages
  end.

Definition parse_ocr_pages (pages_str : str) : pyres (list Z) :=
  if negb (truthy pages_str) || negb (truthy (strip pages_str))
  then Return []
  else
    let+ pages := parts_loop (split COMMA pages_str) ∅ in
    Return (sorted pages).

End Parser.

End Application.

Import Application.

(** A reader of numerals written in the digits [0] to [9], with the
    message of [int] for every other string. *)
Fixpoint digits_value (s : str) (acc : Z) : option Z :=
  match s with
  | [] => Some acc
  | c :: s' =>
      if ((48 <=? c) && (c <=? 57))%N
      then digits_value s' (10 * acc + Z.of_N (c - 48))
      else None
  end.

Definition decimal_int (s : str) : str + Z :=
  match s, digits_value s 0 with
  | _ :: _, Some z => inr z
  | _, _ => inl (lit "invalid literal for int() with base 10: '" ++ s ++ lit "'")
  end.

(** An entry of the page list: one page, or the pages from [a] to [b]. *)
Inductive item :=
| Single (n : nat)
| Range (a b : nat).

(** How an entry is written. *)
Definition render (it : item) : str :=
  match it with
  | Single n => str_of_nat n
  | Range a b => str_of_nat a ++ lit "-" ++ str_of_nat b
  end.

(** The pages an entry names. *)
Definition names (it : item) (q : Z) : Prop :=
  match it with
  | Single n => q = Z.of_nat n
  | Range a b => Z.of_nat a <= q <= Z.of_nat b
  end.

(** [int] reads the numbers of the entry back, and a range is in order. *)
Definition well_read (py_int : str -> str + Z) (it : item) : Prop :=
  match it with
  | Single n => py_int (str_of_nat n) = inr (Z.of_nat n)
  | Range a b =>
      py_int (str_of_nat a) = inr (Z.of_nat a)
      /\ py_int (str_of_nat b) = inr (Z.of_nat b)
      /\ (a <= b)%nat
  end.

(** A list of integers that increases strictly. *)
Definition increasing (l : list Z) : Prop := Sorted Z.lt l.

(* ===================================================================== *)
(** ** ConfigManager *)
(* ===================================================================== *)

Module ConfigManager.

#[local] Open Scope py_scope.

(** [self.config]: a [dict] from keys to values of JSON. *)
Abbreviation config := (gmap str json).

Definition API_KEY : str := lit "api_key".
Definition RECENT_FOLDERS : str := lit "recent_folders".

Definition default_config : config :=
  list_to_map
    [(API_KEY, JStr []);
     (lit "folder_path", JStr []);
     (lit "custom_instruction",
      JStr (lit "Summarize this document and highlight key points."));
     (lit "ocr_language", JStr (lit "eng"));
     (lit "ocr_pages", JStr (lit "0,1"));
     (lit "ocr_all_pages", JBool false);
     (RECENT_FOLDERS, JList []);
     (lit "auto_open_pdf", JBool true);
     (lit "default_save_location", JStr [])].

(** The configuration file: there is none, it cannot be opened or is
    not JSON, or [json.load] gives the value [v]. A save that writes
    the file leaves it holding the [dict] that was dumped: [json.load]
    reads back what [json.dump] wrote. *)
Inductive file :=
| Missing
| Unreadable
| Holds (v : json).

(** What an attempt to write the file does: all is written, the file
    cannot be opened, or the writing stops half way. *)
Inductive write :=
| Written
| NotOpened
| Broken.

(** [load_config]: every failure gives the defaults, also a value that
    is no [dict], which [**] does not take. *)
Definition load_config (f : file) : config :=
  match f with
  | Holds (JDict saved_config) =>
      <[API_KEY := JStr []]> (list_to_map saved_config ∪ default_config)
  | _ => default_config
  end.

(** The [dict] that [save_config] hands to [json.dump]. *)
Definition config_to_save (c : config) : json :=
  JDict (map_to_list (delete API_KEY c)).

(** [save_config]: the file after it; the exceptions are caught, and
    what is printed is left out. *)
Definition save_config (w : write) (c : config) (f : file) : file :=
  match w with
  | Written => Holds (config_to_save c)
  | NotOpened => f
  | Broken => Unreadable
  end.

Definition update_config (w : write) (key : str) (value : json)
    (st : config * file) : config * file :=
  let c := <[key := value]> st.1 in
  (c, if negb (str_eqb key API_KEY) then save_config w c st.2 else st.2).

(** [recent.remove(folder_path)] for a path that is in the list. *)
Fixpoint remove (folder_path : str) (recent : list json) : list json :=
  match recent with
  | [] => []
  | x :: rest =>
      if json_eq_str x folder_path then rest
      else x :: remove folder_path rest
  end.

Section Recent.

(** The exception of [in], [remove] or [insert] for a value that is no
    list. *)
Variable not_a_list : str -> json -> exn.

(** [add_recent_folder]; [isdir] is what [os.path.isdir] answers. The
    list in the configuration is changed in place and then replaced by
    its first five entries; nothing else holds the list, so only the
    new value is kept. *)
Definition add_recent_folder (w : write) (isdir : bool) (folder_path : str)
    (st : config * file) : pyres (config * file) :=
  if negb (truthy folder_path) || negb isdir then Return st
  else
    match default (JList []) (st.1 !! RECENT_FOLDERS) with
    | JList recent =>
        let recent :=
          if existsb (fun x => json_eq_str x folder_path) recent
          then remove folder_path recent
          else recent in
        let recent := JStr folder_path :: recent in
        let c := <[RECENT_FOLDERS := JList (take 5 recent)]> st.1 in
        Return (c, save_config w c st.2)
    | other => Raise (not_a_list folder_path other)
    end.

End Recent.

End ConfigManager.

Import ConfigManager.

(** The file has an entry for the API key. *)
Definition holds_api_key (f : file) : bool :=
  match f with
  | Holds (JDict d) =>
      match dict_lookup d API_KEY with Some _ => true | None => false end
  | _ => false
  end.

(** A call of [update_config] or of [add_recent_folder]. *)
Inductive call :=
| UpdateConfig (key : str) (value : json)
| AddRecentFolder (isdir : bool) (folder_path : str).

(** Calls one after the other, each with what its writing does. *)
Fixpoint run_calls (not_a_list : str -> json -> exn)
    (calls : list (call * write)) (st : config * file)
    : pyres (config * file) :=
  match calls with
  | [] => Return st
  | (UpdateConfig key value, w) :: rest =>
      run_calls not_a_list rest (update_config w key value st)
  | (AddRecentFolder isdir folder_path, w) :: rest =>
      rbind (add_recent_folder not_a_list w isdir folder_path st)
        (run_calls not_a_list rest)
  end.

(** The recent folders of a configuration are the paths [names]. *)
Definition recent_are (c : config) (names : list str) : Prop :=
  c !! RECENT_FOLDERS = Some (JList (List.map JStr names)).

(** A call that does not assign the recent folders. *)
Definition keeps_recent (cw : call * write) : Prop :=
  match cw.1 with
  | UpdateConfig key _ => key <> RECENT_FOLDERS
  | AddRecentFolder _ _ => True
  end.

Definition plain_not_a_list : str -> json -> exn :=
  fun _ _ => TypeError (lit "not a list").

(* ===================================================================== *)
(** ** Application.process_pdfs_thread: the counts *)
(* ===================================================================== *)

Module Worker.



End Worker.

Import Worker.

(* ===================================================================== *)
(** ** Facts about the string operations *)
(* ===================================================================== *)

Section StringFacts.

Implicit Types (s sub : str) (c : N).

Lemma len_nonneg s : 0 <= len s.
Proof. unfold len. lia. Qed.

Lemma truthy_true s : truthy s = true <-> s <> [].
Proof. destruct s; simpl; split; congruence. Qed.

Lemma truthy_len s : 0 < len s -> truthy s = true.
Proof. destruct s; simpl; [unfold len; simpl; lia | reflexivity]. Qed.

Lemma lstrip_split s :
  exists ws, s = ws ++ lstrip s /\ forallb isspace ws = true.
Proof.
  induction s as [|c s IH]; simpl.
  - exists []. auto.
  - destruct (isspace c) eqn:Hc.
    + destruct IH as (ws & Hs & Hws).
      exists (c :: ws). simpl. rewrite Hc, Hws. split; [congruence | easy].
    + exists []. auto.
Qed.

Lemma rstrip_split s :
  exists ws, s = rstrip s ++ ws /\ forallb isspace ws = true.
Proof.
  induction s as [|c s IH]; simpl.
  - exists []. auto.
  - destruct IH as (ws & Hs & Hws).
    destruct (rstrip s) as [|d r] eqn:Hr.
    + simpl in Hs. subst s.
      destruct (isspace c) eqn:Hc.
      * exists (c :: ws). simpl. rewrite Hc, Hws. auto.
      * exists ws. auto.
    + exists ws. split; [|assumption].
      rewrite Hs at 1. reflexivity.
Qed.

Lemma strip_split s :
  exists w1 w2, s = w1 ++ strip s ++ w2
    /\ forallb isspace w1 = true /\ forallb isspace w2 = true.
Proof.
  destruct (lstrip_split s) as (w1 & H1 & Hw1).
  destruct (rstrip_split (lstrip s)) as (w2 & H2 & Hw2).
  exists w1, w2. unfold strip. rewrite <- H2. auto.
Qed.

Lemma nonspace_app s1 s2 : nonspace (s1 ++ s2) = nonspace s1 ++ nonspace s2.
Proof. unfold nonspace. apply List.filter_app. Qed.

Lemma nonspace_spaces ws : forallb isspace ws = true -> nonspace ws = [].
Proof.
  induction ws as [|c ws IH]; simpl; [reflexivity|].
  intros H. apply andb_prop in H as [Hc Hws]. rewrite Hc. simpl. auto.
Qed.

Lemma nonspace_strip s : nonspace (strip s) = nonspace s.
Proof.
  destruct (strip_split s) as (w1 & w2 & Hs & H1 & H2).
  rewrite Hs at 2. rewrite !nonspace_app.
  rewrite (nonspace_spaces _ H1), (nonspace_spaces _ H2).
  simpl. now rewrite app_nil_r.
Qed.

Lemma length_strip s : (length (strip s) <= length s)%nat.
Proof.
  destruct (strip_split s) as (w1 & w2 & Hs & _).
  rewrite Hs at 2. rewrite !length_app. lia.
Qed.

Lemma lstrip_clean s : clean_head s -> lstrip s = s.
Proof. destruct s as [|c s]; simpl; [easy|]. now intros ->. Qed.

Lemma clean_lstrip s : clean_head (lstrip s).
Proof.
  induction s as [|c s IH]; simpl; [exact I|].
  destruct (isspace c) eqn:Hc; [assumption|]. simpl. assumption.
Qed.

Lemma clean_rstrip s : clean_head s -> clean_head (rstrip s).
Proof.
  destruct s as [|c s]; simpl; [easy|]. intros Hc.
  destruct (rstrip s); [rewrite Hc|]; simpl; assumption.
Qed.

Lemma rstrip_idem s : rstrip (rstrip s) = rstrip s.
Proof.
  induction s as [|c s IH]; simpl; [reflexivity|].
  destruct (rstrip s) as [|d r] eqn:Hr.
  - destruct (isspace c) eqn:Hc; simpl; [reflexivity|]. now rewrite Hc.
  - change (rstrip (c :: d :: r)
            = c :: d :: r).
    change (rstrip (c :: d :: r))
      with (match rstrip (d :: r) with
            | [] => if isspace c then [] else [c]
            | x :: r' => c :: x :: r'
            end).
    now rewrite IH.
Qed.

Lemma strip_idem s : strip (strip s) = strip s.
Proof.
  unfold strip.
  rewrite (lstrip_clean (rstrip (lstrip s))).
  - apply rstrip_idem.
  - apply clean_rstrip, clean_lstrip.
Qed.

(** *** Slices *)

Lemma slice_inside s a b :
  0 <= a <= b -> b <= len s ->
  slice s a b = take (Z.to_nat (b - a)) (drop (Z.to_nat a) s).
Proof.
  intros Ha Hb. unfold slice, clamp_index.
  destruct (Z.ltb_spec a 0); [lia|].
  destruct (Z.ltb_spec b 0); [lia|].
  rewrite !Z.min_l by lia. reflexivity.
Qed.

Lemma len_slice s a b :
  0 <= a <= b -> b <= len s -> len (slice s a b) = b - a.
Proof.
  intros Ha Hb. rewrite slice_inside by assumption.
  unfold len in *. rewrite length_take, length_drop. lia.
Qed.

Lemma take_slice s a b :
  0 <= a <= b -> b <= len s ->
  take (Z.to_nat a) s ++ slice s a b = take (Z.to_nat b) s.
Proof.
  intros Ha Hb. rewrite slice_inside by assumption.
  replace (Z.to_nat b) with (Z.to_nat a + Z.to_nat (b - a))%nat by lia.
  now rewrite take_take_drop.
Qed.

(** *** Searching *)

Lemma rfind_rel_found sub s b i :
  rfind_rel sub s b = Some i ->
  (i < b)%nat /\ startswith (drop i s) sub = true.
Proof.
  revert s i. induction b as [|b IH]; intros s i; simpl; [easy|].
  destruct s as [|c s].
  - destruct (startswith [] sub) eqn:Hm; [|easy].
    intros [= <-]. split; [lia | assumption].
  - destruct (rfind_rel sub s b) as [j|] eqn:Hj.
    + intros [= <-]. apply IH in Hj as [? ?]. split; [lia | assumption].
    + destruct (startswith (c :: s) sub) eqn:Hm; [|easy].
      intros [= <-]. split; [lia | assumption].
Qed.

Lemma rfind_rel_none sub s b :
  rfind_rel sub s b = None ->
  forall j, (j < b)%nat -> startswith (drop j s) sub = false.
Proof.
  revert s. induction b as [|b IH]; intros s H j Hj; [lia|].
  simpl in H. destruct s as [|c s].
  - rewrite drop_nil.
    destruct (startswith [] sub); [discriminate | reflexivity].
  - destruct (rfind_rel sub s b) eqn:Hr; [discriminate|].
    destruct (startswith (c :: s) sub) eqn:Hm; [discriminate|].
    destruct j as [|j]; [exact Hm|]. simpl. apply (IH s Hr). lia.
Qed.

Lemma rfind_rel_last sub s b i :
  sub <> [] -> rfind_rel sub s b = Some i ->
  forall j, (i < j < b)%nat -> startswith (drop j s) sub = false.
Proof.
  intros Hsub.
  assert (Hnil : forall j, startswith (drop j []) sub = false).
  { intros j. rewrite drop_nil. destruct sub; [congruence | reflexivity]. }
  revert s i. induction b as [|b IH]; intros s i; simpl; [easy|].
  destruct s as [|c s]; [intros _ j _; apply Hnil|].
  destruct (rfind_rel sub s b) as [k|] eqn:Hk.
  - intros [= <-] j Hj. destruct j as [|j]; [lia|]. simpl.
    apply (IH s k Hk). lia.
  - destruct (startswith (c :: s) sub) eqn:Hm; [|easy].
    intros [= <-] j Hj. destruct j as [|j]; [lia|]. simpl.
    apply (rfind_rel_none _ _ _ Hk). lia.
Qed.

Lemma rfind_rel_absent sub s b :
  (forall j, startswith (drop j s) sub = false) -> rfind_rel sub s b = None.
Proof.
  intros H. destruct (rfind_rel sub s b) as [i|] eqn:Hi; [|reflexivity].
  apply rfind_rel_found in Hi as [_ Hi]. rewrite H in Hi. discriminate.
Qed.

(** Inside the bounds the source uses, [rfind] fails or returns the
    place of an occurrence that lies inside [s[start:end]]. *)
Lemma rfind_range s sub a b :
  0 <= a <= b -> b <= len s ->
  rfind s sub a b = -1
  \/ (a <= rfind s sub a b /\ rfind s sub a b + len sub <= b
      /\ startswith (drop (Z.to_nat (rfind s sub a b)) s) sub = true).
Proof.
  intros Ha Hb. unfold rfind.
  destruct (Z.gtb_spec b (len s)); [lia|].
  destruct (Z.ltb_spec a 0); [lia|].
  destruct (Z.ltb_spec b 0); [lia|].
  destruct (Z.ltb_spec (b - a) (len sub)); [now left|].
  destruct (rfind_rel _ _ _) as [i|] eqn:Hi; [|now left].
  apply rfind_rel_found in Hi as [Hlt Hm]. right.
  rewrite drop_drop in Hm.
  replace (Z.to_nat (a + Z.of_nat i)) with (Z.to_nat a + i)%nat by lia.
  repeat split; [lia | lia | assumption].
Qed.

(** The occurrence [rfind] returns is the last one that fits. *)
Lemma rfind_last s sub a b j :
  sub <> [] -> 0 <= a <= b -> b <= len s ->
  rfind s sub a b < j -> a <= j -> j + len sub <= b ->
  startswith (drop (Z.to_nat j) s) sub = false.
Proof.
  intros Hsub Ha Hb. unfold rfind.
  destruct (Z.gtb_spec b (len s)); [lia|].
  destruct (Z.ltb_spec a 0); [lia|].
  pose proof (len_nonneg sub).
  destruct (Z.ltb_spec b 0); [lia|].
  destruct (Z.ltb_spec (b - a) (len sub)); [lia|].
  intros Hr Haj Hjb.
  replace (Z.to_nat j) with (Z.to_nat a + Z.to_nat (j - a))%nat by lia.
  rewrite <- drop_drop.
  destruct (rfind_rel _ _ _) as [i|] eqn:Hi.
  - eapply rfind_rel_last; [exact Hsub | exact Hi | lia].
  - destruct (startswith _ sub) eqn:Hm; [|reflexivity].
    exfalso.
    rewrite (rfind_rel_none _ _ _ Hi) in Hm; [discriminate | lia].
Qed.

Lemma occurs_false_drop sub s :
  occurs sub s = false -> forall j, startswith (drop j s) sub = false.
Proof.
  induction s as [|c s IH]; simpl; intros H j.
  - rewrite drop_nil. now apply orb_false_elim in H as [? _].
  - apply orb_false_elim in H as [Hm Hs].
    destruct j as [|j]; simpl; [assumption | now apply IH].
Qed.

Lemma rfind_absent s sub a b :
  occurs sub s = false -> rfind s sub a b = -1.
Proof.
  intros H. unfold rfind.
  destruct (_ <? len sub); [reflexivity|].
  rewrite rfind_rel_absent; [reflexivity|].
  intros j. rewrite drop_drop. now apply occurs_false_drop.
Qed.

End StringFacts.

(* ===================================================================== *)
(** ** Facts about the splitter *)
(* ===================================================================== *)

Section SplitterFacts.

Variable text : str.

Lemma MAX_pos : 0 < MAX_CHARS_PER_CHUNK.
Proof. reflexivity. Qed.

Lemma sentence_step_range cur e sb sep :
  0 <= cur <= e -> e <= len text -> len sep = 2 ->
  sb = -1 \/ cur < sb <= e ->
  sentence_step text cur e sb sep = -1
  \/ cur < sentence_step text cur e sb sep <= e.
Proof.
  intros Hc He Hsep Hsb. unfold sentence_step.
  destruct (rfind_range text sep cur e Hc He) as [-> | (H1 & H2 & _)].
  - destruct (Z.gtb_spec (-1) cur); [lia | exact Hsb].
  - destruct (Z.gtb_spec (rfind text sep cur e) cur); simpl; [|exact Hsb].
    destruct (Z.gtb_spec (rfind text sep cur e) sb); [|exact Hsb].
    right. lia.
Qed.

Lemma sentence_fold_range cur e seps sb :
  0 <= cur <= e -> e <= len text ->
  Forall (fun sep => len sep = 2) seps ->
  sb = -1 \/ cur < sb <= e ->
  fold_left (sentence_step text cur e) seps sb = -1
  \/ cur < fold_left (sentence_step text cur e) seps sb <= e.
Proof.
  intros Hc He Hseps. revert sb.
  induction Hseps as [|sep seps Hsep _ IH]; intros sb Hsb; simpl.
  - exact Hsb.
  - apply IH. now apply sentence_step_range.
Qed.

Lemma best_split_range cur e :
  0 <= cur <= e -> e <= len text ->
  best_split_of text cur e = -1 \/ cur < best_split_of text cur e <= e.
Proof.
  intros Hc He. unfold best_split_of.
  assert (Hpage : len page_sep = 9) by reflexivity.
  assert (Hpara : len para_sep = 2) by reflexivity.
  destruct (rfind_range text page_sep cur e Hc He) as [Hp | (Hp1 & Hp2 & _)];
    destruct (rfind_range text para_sep cur e Hc He) as [Hq | (Hq1 & Hq2 & _)];
    set (p := rfind text page_sep cur e) in *;
    set (q := rfind text para_sep cur e) in *;
    set (sb := fold_left _ _ _);
    assert (Hsb : sb = -1 \/ cur < sb <= e)
      by (apply sentence_fold_range; auto;
          repeat constructor);
    destruct (Z.gtb_spec p cur); destruct (Z.gtb_spec q cur); simpl;
    try lia;
    repeat match goal with
      | |- context [?a >? ?b] => destruct (Z.gtb_spec a b); simpl
      | |- context [?a =? ?b] => destruct (Z.eqb_spec a b); simpl
      end; lia.
Qed.

Lemma split_pos_range cur :
  0 <= cur < len text ->
  cur < split_pos_of text cur
      <= Z.min (cur + MAX_CHARS_PER_CHUNK) (len text).
Proof.
  intros Hc. pose proof MAX_pos. unfold split_pos_of.
  set (e := Z.min _ _).
  destruct (Z.ltb_spec e (len text)); [|lia].
  destruct (best_split_range cur e) as [Hb | Hb]; [lia | lia | |].
  - rewrite Hb. destruct (Z.gtb_spec (-1) cur); lia.
  - destruct (Z.gtb_spec (best_split_of text cur e) cur); lia.
Qed.

Lemma append_chunk_pieces pieces p :
  append_chunk (List.filter truthy (List.map strip pieces)) (strip p)
  = List.filter truthy (List.map strip (pieces ++ [p])).
Proof.
  rewrite List.map_app, List.filter_app. simpl. unfold append_chunk.
  destruct (truthy (strip p)); [reflexivity | now rewrite app_nil_r].
Qed.

(** Cutting one more piece off the text keeps [covers]. *)
Lemma covers_step chunks cur nxt :
  covers text (mk_state chunks cur) ->
  cur <= nxt <= len text -> nxt - cur <= MAX_CHARS_PER_CHUNK ->
  covers text
    (mk_state (append_chunk chunks (strip (slice text cur nxt))) nxt).
Proof.
  intros ((Hc0 & Hc1) & pieces & Hcat & Hch & Hlen) Hn Hmax.
  simpl in *. split; [simpl; lia|].
  exists (pieces ++ [slice text cur nxt]). simpl. split; [|split].
  - rewrite concat_app, Hcat. simpl. rewrite app_nil_r.
    apply take_slice; lia.
  - rewrite Hch. apply append_chunk_pieces.
  - apply Forall_app. split; [assumption|].
    constructor; [|constructor]. rewrite len_slice; lia.
Qed.

(** One turn of the loop: the cursor moves forward, stays inside the
    text, the chunks still cover the text up to it, and a [break]
    leaves it at the end of the text. *)
Lemma loop_body_spec st :
  covers text st -> current_pos st < len text ->
  covers text (state_of (loop_body text st))
  /\ current_pos st < current_pos (state_of (loop_body text st))
  /\ (forall st', loop_body text st = Break st' ->
        current_pos st' = len text).
Proof.
  intros Hcov Hlt. pose proof MAX_pos as HM.
  destruct st as [chs cur]. simpl in *.
  assert (Hc : 0 <= cur < len text) by (destruct Hcov as [[? ?] _]; simpl in *; lia).
  pose proof (split_pos_range cur Hc) as Hsp.
  unfold loop_body. simpl.
  set (sp := split_pos_of text cur) in *.
  set (e := Z.min (cur + MAX_CHARS_PER_CHUNK) (len text)) in *.
  assert (Hcov1 : covers text
            (mk_state (append_chunk chs (strip (slice text cur sp))) sp))
    by (apply covers_step; [assumption | lia | lia]).
  destruct ((sp =? e) && (e =? len text)) eqn:Hb1.
  { simpl. split; [assumption|]. split; [lia|].
    intros st' [= <-]. simpl.
    apply andb_prop in Hb1 as [H1 H2]. lia. }
  destruct (Z.geb_spec sp (len text)).
  { simpl. split; [assumption|]. split; [lia|].
    intros st' [= <-]. simpl. lia. }
  destruct (Z.leb_spec sp sp); [|lia].
  destruct (Z.ltb_spec sp (len text)); [|lia].
  simpl. split; [|split; [lia | intros st' [=]]].
  apply covers_step; [assumption | lia | lia].
Qed.

Lemma covers_init : covers text (mk_state [] 0).
Proof.
  split; simpl; [pose proof (len_nonneg text); lia|].
  exists []. simpl. repeat split. constructor.
Qed.

(** The loop ends within as many turns as characters are left, at the
    end of the text and with the whole text covered. *)
Lemma while_loop_spec fuel st :
  covers text st -> len text - current_pos st <= Z.of_nat fuel ->
  exists st' n,
    while_loop text fuel st = Some (st', n)
    /\ covers text st' /\ current_pos st' = len text
    /\ Z.of_nat n <= Z.max 0 (len text - current_pos st).
Proof.
  revert st. induction fuel as [|fuel IH]; intros st Hcov Hfuel; simpl.
  - destruct (Z.ltb_spec (current_pos st) (len text)); [lia|].
    exists st, 0%nat. pose proof Hcov as [Hr _].
    split; [reflexivity|]. split; [exact Hcov|]. lia.
  - destruct (Z.ltb_spec (current_pos st) (len text)) as [Hlt | Hge].
    + destruct (loop_body_spec st Hcov Hlt) as (Hcov' & Hadv & Hbrk).
      destruct (loop_body text st) as [st' | st'] eqn:Hbody; simpl in *.
      * exists st', 1%nat.
        split; [reflexivity|]. split; [exact Hcov'|].
        split; [now apply Hbrk | lia].
      * destruct (IH st' Hcov') as (st'' & n & Hrun & Hc'' & Hend & Hn);
          [lia|].
        rewrite Hrun. exists st'', (S n).
        split; [reflexivity|]. split; [exact Hc''|]. lia.
    + exists st, 0%nat. pose proof Hcov as [Hr _].
      split; [reflexivity|]. split; [exact Hcov|]. lia.
Qed.

(** More fuel than needed changes nothing. *)
Lemma while_loop_more fuel fuel' st r :
  while_loop text fuel st = Some r -> (fuel <= fuel')%nat ->
  while_loop text fuel' st = Some r.
Proof.
  revert fuel' st r.
  induction fuel as [|fuel IH]; intros fuel' st r; simpl.
  - destruct (current_pos st <? len text) eqn:Hlt; [easy|].
    intros H _. destruct fuel'; simpl; now rewrite Hlt.
  - destruct (current_pos st <? len text) eqn:Hlt.
    + intros H Hle. destruct fuel' as [|fuel']; [lia|]. simpl.
      rewrite Hlt. destruct (loop_body text st) as [st'|st']; [assumption|].
      destruct (while_loop text fuel st') as [[st'' n]|] eqn:Hrun; [|easy].
      rewrite (IH fuel' st' _ Hrun); [assumption | lia].
    + intros H _. destruct fuel'; simpl; now rewrite Hlt.
Qed.

End SplitterFacts.

Section SplitterResults.

Variable text : str.

Lemma filter_truthy_idem (l : list str) :
  List.filter truthy (List.filter truthy l) = List.filter truthy l.
Proof.
  induction l as [|c l IH]; simpl; [reflexivity|].
  destruct (truthy c) eqn:Hc; simpl; [rewrite Hc, IH|]; auto.
Qed.

Lemma chunking_strip pieces :
  chunking pieces (List.filter truthy (List.map strip pieces)).
Proof.
  induction pieces as [|p ps IH]; simpl; [constructor|].
  destruct (strip_split p) as (w1 & w2 & Hp & H1 & H2).
  destruct (truthy (strip p)) eqn:Ht.
  - apply chunking_keep; [|assumption]. now exists w1, w2.
  - apply chunking_drop; [|assumption].
    destruct (strip p); [|discriminate]. simpl in Hp. subst p.
    rewrite forallb_app, H1, H2. reflexivity.
Qed.

Lemma chunking_nonspace pieces cs :
  chunking pieces cs -> nonspace (concat cs) = nonspace (concat pieces).
Proof.
  induction 1 as [|p c ps cs (w1 & w2 & Hp & H1 & H2) _ IH|p ps cs Hp _ IH];
    simpl; [reflexivity| |].
  - rewrite !nonspace_app, IH. subst p. rewrite !nonspace_app.
    rewrite (nonspace_spaces _ H1), (nonspace_spaces _ H2).
    simpl. now rewrite app_nil_r.
  - rewrite nonspace_app, (nonspace_spaces _ Hp), IH. reflexivity.
Qed.

(** The long path: the loop ends, and what it returns is a cutting of
    the whole text into pieces within the budget, trimmed, the empty
    ones left out. *)
Lemma split_long :
  MAX_CHARS_PER_CHUNK < len text ->
  exists pieces,
    _split_text_into_chunks text
      = Some (List.filter truthy (List.map strip pieces))
    /\ concat pieces = text
    /\ Forall (fun p => len p <= MAX_CHARS_PER_CHUNK) pieces.
Proof.
  intros Hlong. pose proof MAX_pos.
  unfold _split_text_into_chunks, split_with_fuel.
  rewrite truthy_len by lia.
  destruct (Z.leb_spec (len text) MAX_CHARS_PER_CHUNK); [lia|]. simpl.
  destruct (while_loop_spec text (length text) (mk_state [] 0))
    as (st & n & Hrun & (_ & pieces & Hcat & Hch & Hlen) & Hend & _).
  - apply covers_init.
  - simpl. unfold len. lia.
  - rewrite Hrun. exists pieces. rewrite Hch, filter_truthy_idem.
    split; [reflexivity|]. split; [|assumption].
    rewrite Hcat, Hend. unfold len. rewrite Nat2Z.id. apply firstn_all.
Qed.

(** The short path returns the text as it is. *)
Lemma split_short :
  len text <= MAX_CHARS_PER_CHUNK ->
  _split_text_into_chunks text
    = Some (match text with [] => [] | _ => [text] end).
Proof.
  intros Hshort. unfold _split_text_into_chunks, split_with_fuel.
  destruct (Z.leb_spec (len text) MAX_CHARS_PER_CHUNK); [|lia].
  rewrite orb_true_r. now destruct text.
Qed.

Lemma split_total : exists chunks, _split_text_into_chunks text = Some chunks.
Proof.
  destruct (Z.le_gt_cases (len text) MAX_CHARS_PER_CHUNK) as [Hs | Hl].
  - eexists. now apply split_short.
  - destruct (split_long Hl) as (pieces & Heq & _). eexists. exact Heq.
Qed.

Lemma loop_body_advances st :
  0 <= current_pos st < len text ->
  current_pos st < current_pos (state_of (loop_body text st)).
Proof.
  intros Hc. pose proof MAX_pos. pose proof (split_pos_range text _ Hc).
  unfold loop_body.
  repeat match goal with
    | |- context [if ?b then _ else _] => destruct b eqn:?; simpl
    end; lia.
Qed.

(** *** Texts without separators *)

Hypothesis Hfree : marker_free text = true.

Lemma separators_absent sep :
  In sep (page_sep :: para_sep :: sentence_seps) -> occurs sep text = false.
Proof using Hfree.
  intros Hin. unfold marker_free in Hfree.
  rewrite forallb_forall in Hfree. apply Hfree in Hin.
  now apply negb_true_iff in Hin.
Qed.

Lemma sentence_fold_free cur e seps sb :
  0 <= cur -> (forall sep, In sep seps -> occurs sep text = false) ->
  fold_left (sentence_step text cur e) seps sb = sb.
Proof.
  intros Hc. revert sb. induction seps as [|sep seps IH]; intros sb Habs.
  - reflexivity.
  - simpl. unfold sentence_step at 2.
    rewrite rfind_absent by (apply Habs; now left).
    destruct (Z.gtb_spec (-1) cur); [lia|]. simpl.
    apply IH. intros sep' Hin. apply Habs. now right.
Qed.

Lemma best_split_free cur e : 0 <= cur -> best_split_of text cur e = -1.
Proof using Hfree.
  intros Hc. unfold best_split_of.
  rewrite (rfind_absent text page_sep)
    by (apply separators_absent; now left).
  rewrite (rfind_absent text para_sep)
    by (apply separators_absent; right; now left).
  rewrite sentence_fold_free;
    [|assumption|intros sep Hin; apply separators_absent; now do 2 right].
  destruct (Z.gtb_spec (-1) cur); [lia|]. reflexivity.
Qed.

Lemma split_pos_free cur :
  0 <= cur ->
  split_pos_of text cur = Z.min (cur + MAX_CHARS_PER_CHUNK) (len text).
Proof using Hfree.
  intros Hc. unfold split_pos_of.
  destruct (_ <? len text); [|reflexivity].
  rewrite best_split_free by assumption.
  destruct (Z.gtb_spec (-1) cur); [lia | reflexivity].
Qed.

(** Without separators every turn but the last moves the cursor by
    twice the budget. *)
Lemma while_loop_free_turns fuel st st' n :
  0 <= current_pos st ->
  while_loop text fuel st = Some (st', n) ->
  (current_pos st < len text ->
     2 * MAX_CHARS_PER_CHUNK * (Z.of_nat n - 1) < len text - current_pos st)
  /\ (len text <= current_pos st -> n = 0%nat).
Proof using Hfree.
  pose proof MAX_pos as HM.
  revert st st' n. induction fuel as [|fuel IH]; intros st st' n Hc; simpl.
  - destruct (Z.ltb_spec (current_pos st) (len text)); [easy|].
    intros [= <- <-]. split; [lia | reflexivity].
  - destruct (Z.ltb_spec (current_pos st) (len text)) as [Hlt|Hge];
      [|intros [= <- <-]; split; [lia | reflexivity]].
    unfold loop_body. rewrite split_pos_free by assumption.
    set (e := Z.min (current_pos st + MAX_CHARS_PER_CHUNK) (len text)).
    rewrite Z.eqb_refl. simpl.
    destruct (Z.eqb_spec e (len text)) as [He|He].
    { intros [= <- <-]. split; lia. }
    destruct (Z.geb_spec e (len text)); [lia|].
    destruct (Z.leb_spec e e); [|lia].
    destruct (Z.ltb_spec e (len text)); [|lia]. simpl.
    match goal with
    | |- context [while_loop text fuel ?s] =>
        destruct (while_loop text fuel s) as [[st'' m]|] eqn:Hrun;
        [apply IH in Hrun as [Hlong Hshort]; [|simpl; lia]|easy]
    end.
    simpl in *. intros [= <- <-]. split; [intros _|lia].
    destruct (Z.lt_ge_cases (Z.min (e + MAX_CHARS_PER_CHUNK) (len text))
                (len text)) as [Hin|Hout].
    + specialize (Hlong Hin). lia.
    + rewrite (Hshort Hout). lia.
Qed.

End SplitterResults.

(* ===================================================================== *)
(** ** The splitter: the properties of the specification *)
(* ===================================================================== *)

(** C2, as the code has it: an empty text gives no chunk; a non-empty
    text within the budget gives exactly one chunk, the text itself,
    untrimmed. *)
Theorem split_within_budget (text : str) :
  (text = [] -> _split_text_into_chunks text = Some [])
  /\ (text <> [] -> len text <= MAX_CHARS_PER_CHUNK ->
      _split_text_into_chunks text = Some [text]).
Proof.
  split.
  - intros ->. reflexivity.
  - intros Hne Hshort. rewrite split_short by assumption.
    destruct text; [congruence | reflexivity].
Qed.

Lemma split_within_budget_witness :
  _split_text_into_chunks [] = Some []
  /\ lit " a " <> []
  /\ len (lit " a ") <= MAX_CHARS_PER_CHUNK
  /\ _split_text_into_chunks (lit " a ") = Some [lit " a "].
Proof.
  split; [apply (proj1 (split_within_budget [])); reflexivity|].
  split; [discriminate|].
  split; [vm_compute; discriminate|].
  apply (proj2 (split_within_budget (lit " a ")));
    [discriminate | vm_compute; discriminate].
Defined.

(** C2, as the specification states it, fails: a text of white space
    only gives one chunk and not none, and a padded text comes back with
    its padding, not trimmed. *)
Lemma split_within_budget_not_trimmed :
  len (lit "  ") <= MAX_CHARS_PER_CHUNK
  /\ _split_text_into_chunks (lit "  ") = Some [lit "  "]
  /\ _split_text_into_chunks (lit "  ")
     <> Some (List.filter truthy [strip (lit "  ")])
  /\ _split_text_into_chunks (lit " a ") <> Some [strip (lit " a ")].
Proof.
  split; [vm_compute; discriminate|].
  split; [reflexivity|].
  split; vm_compute; discriminate.
Qed.

(** C6: for a text longer than the budget the splitter returns, every
    chunk it returns is no longer than [MAX_CHARS_PER_CHUNK], and no
    chunk is empty, before or after trimming. *)
Theorem split_chunks_bounded (text : str) :
  MAX_CHARS_PER_CHUNK < len text ->
  exists chunks,
    _split_text_into_chunks text = Some chunks
    /\ Forall (fun c => len c <= MAX_CHARS_PER_CHUNK
                        /\ c <> [] /\ strip c <> []) chunks.
Proof.
  intros Hlong. destruct (split_long text Hlong) as (pieces & Heq & _ & Hlen).
  eexists. split; [exact Heq|].
  apply List.Forall_forall. intros c Hc.
  apply List.filter_In in Hc as [Hin Ht].
  apply List.in_map_iff in Hin as (p & <- & Hp).
  rewrite List.Forall_forall in Hlen. specialize (Hlen p Hp).
  rewrite strip_idem. apply truthy_true in Ht. split; [|tauto].
  pose proof (length_strip p). unfold len in *. lia.
Qed.

Lemma split_chunks_bounded_witness :
  MAX_CHARS_PER_CHUNK < len (repeat 120%N 15001)
  /\ exists chunks,
       _split_text_into_chunks (repeat 120%N 15001) = Some chunks
       /\ Forall (fun c => len c <= MAX_CHARS_PER_CHUNK
                           /\ c <> [] /\ strip c <> []) chunks.
Proof.
  split; [vm_compute; reflexivity|].
  apply (split_chunks_bounded (repeat 120%N 15001)).
  vm_compute; reflexivity.
Defined.

(** C7: the cursor moves strictly forward in every turn of the loop, so
    the loop ends, with one result for every bound of at least
    [len(text)] turns, and the function returns, for every text; for a
    text without any separator the loop takes at most
    [ceil(len(text) / MAX_CHARS_PER_CHUNK)] turns. *)
Theorem split_terminates (text : str) :
  (forall st, 0 <= current_pos st < len text ->
     current_pos st < current_pos (state_of (loop_body text st)))
  /\ (exists st n,
        forall fuel, (length text <= fuel)%nat ->
          while_loop text fuel (mk_state [] 0) = Some (st, n))
  /\ (exists chunks, _split_text_into_chunks text = Some chunks)
  /\ (marker_free text = true ->
      exists st n,
        while_loop text (length text) (mk_state [] 0) = Some (st, n)
        /\ Z.of_nat n <= ceil_div (len text) MAX_CHARS_PER_CHUNK).
Proof.
  assert (Hrun : exists st n,
            while_loop text (length text) (mk_state [] 0) = Some (st, n)).
  { destruct (while_loop_spec text (length text) (mk_state [] 0))
      as (st & n & Hrun & _).
    - apply covers_init.
    - simpl. unfold len. lia.
    - eauto. }
  split; [apply loop_body_advances|].
  split.
  { destruct Hrun as (st & n & Hrun). exists st, n. intros fuel Hfuel.
    now apply (while_loop_more text (length text)). }
  split; [apply split_total|].
  intros Hfree. destruct Hrun as (st & n & Hrun). exists st, n.
  split; [exact Hrun|].
  pose proof MAX_pos as HM. pose proof (len_nonneg text) as Hlen.
  destruct (while_loop_free_turns text Hfree (length text)
              (mk_state [] 0) st n (Z.le_refl 0) Hrun)
    as [Hlong Hshort]. simpl in *.
  unfold ceil_div. apply Z.div_le_lower_bound; [assumption|].
  destruct (Z.lt_ge_cases 0 (len text)) as [Hpos|Hzero].
  - specialize (Hlong Hpos). nia.
  - rewrite Hshort by lia. simpl. lia.
Qed.

Lemma split_terminates_witness :
  let text := repeat 120%N 40000 in
  (0 <= 0 < len text
   /\ 0 < current_pos (state_of (loop_body text (mk_state [] 0))))
  /\ (length text <= 50000)%nat
  /\ marker_free text = true
  /\ (exists st n, while_loop text 50000 (mk_state [] 0) = Some (st, n))
  /\ exists st n,
       while_loop text (length text) (mk_state [] 0) = Some (st, n)
       /\ Z.of_nat n <= ceil_div (len text) MAX_CHARS_PER_CHUNK.
Proof.
  intros text.
  assert (Hpos : 0 <= 0 < len text) by (vm_compute; split; congruence).
  assert (Hfuel : (length text <= 50000)%nat)
    by (apply Nat.leb_le; vm_compute; reflexivity).
  assert (Hfree : marker_free text = true) by (vm_compute; reflexivity).
  split; [split; [exact Hpos|]|].
  { exact (proj1 (split_terminates text) (mk_state [] 0) Hpos). }
  split; [exact Hfuel|]. split; [exact Hfree|]. split.
  - destruct (proj1 (proj2 (split_terminates text))) as (st & n & Hrun).
    exists st, n. exact (Hrun 50000%nat Hfuel).
  - exact (proj2 (proj2 (proj2 (split_terminates text))) Hfree).
Defined.

(** C8: the chunks are, in order, the pieces of a cutting of the whole
    text with white space taken off their ends, pieces of white space
    left out; so the characters of the text that are not white space
    appear in the chunks once each and in their order. *)
Theorem split_preserves_content (text : str) :
  exists chunks pieces,
    _split_text_into_chunks text = Some chunks
    /\ concat pieces = text
    /\ chunking pieces chunks
    /\ nonspace (concat chunks) = nonspace text.
Proof.
  assert (H : exists chunks pieces,
            _split_text_into_chunks text = Some chunks
            /\ concat pieces = text /\ chunking pieces chunks).
  { destruct (Z.le_gt_cases (len text) MAX_CHARS_PER_CHUNK) as [Hs | Hl].
    - rewrite split_short by assumption. destruct text as [|c t] eqn:Ht.
      + exists [], []. repeat split. constructor.
      + exists [c :: t], [c :: t]. split; [reflexivity|]. split.
        * simpl. now rewrite app_nil_r.
        * apply chunking_keep; [|constructor].
          exists [], []. simpl. now rewrite app_nil_r.
    - destruct (split_long text Hl) as (pieces & Heq & Hcat & _).
      eexists. exists pieces. split; [exact Heq|]. split; [exact Hcat|].
      apply chunking_strip. }
  destruct H as (chunks & pieces & Heq & Hcat & Hch).
  exists chunks, pieces. repeat split; try assumption.
  rewrite <- Hcat. now apply chunking_nonspace.
Qed.

(** C1, the code at two texts. In [page_then_paragraph] the first
    window holds a page marker at 1, after the cursor, and a paragraph
    break at 20: the cut falls after the paragraph break, at 22, not at
    the page marker. In [page_after_hard_cut] the second chunk is cut by
    the forced advance, a full window from 15000, though that window
    holds a page marker at 15001. *)
Theorem split_page_marker_not_preferred :
  (MAX_CHARS_PER_CHUNK < len page_then_paragraph
   /\ rfind page_then_paragraph page_sep 0 15000 = 1
   /\ rfind page_then_paragraph para_sep 0 15000 = 20
   /\ split_pos_of page_then_paragraph 0 = 22
   /\ _split_text_into_chunks page_then_paragraph
      = Some [lit "a" ++ page_sep ++ lit "bbbbbbbbbb"; repeat 99%N 15000])
  /\ (MAX_CHARS_PER_CHUNK < len page_after_hard_cut
      /\ rfind page_after_hard_cut page_sep 15000 30000 = 15001
      /\ _split_text_into_chunks page_after_hard_cut
         = Some [repeat 99%N 15000;
                 lit "x" ++ page_sep ++ repeat 100%N 14990;
                 repeat 100%N 5010]).
Proof.
  split; repeat split; vm_compute; reflexivity.
Qed.

(* ===================================================================== *)
(** ** merge_text_and_images: page markers *)
(* ===================================================================== *)

Section MergeFacts.

Import PDFProcessor.

Variable image_text_dict : gmap Z str.

Lemma merge_loop_cons i p pages acc :
  merge_loop image_text_dict i (p :: pages) acc
  = merge_loop image_text_dict (S i) pages
      (acc ++ page_block image_text_dict i p).
Proof. reflexivity. Qed.

Lemma merge_loop_acc i pages acc :
  merge_loop image_text_dict i pages acc
  = acc ++ merge_loop image_text_dict i pages [].
Proof.
  revert i acc. induction pages as [|p ps IH]; intros i acc; simpl.
  - now rewrite app_nil_r.
  - rewrite (IH (S i) (acc ++ _)), (IH (S i) (page_block _ _ _)).
    now rewrite app_assoc.
Qed.

Lemma merge_loop_app i ps1 ps2 acc :
  merge_loop image_text_dict i (ps1 ++ ps2) acc
  = merge_loop image_text_dict (i + length ps1) ps2
      (merge_loop image_text_dict i ps1 acc).
Proof.
  revert i acc. induction ps1 as [|p ps IH]; intros i acc; simpl.
  - now rewrite Nat.add_0_r.
  - rewrite IH. f_equal. lia.
Qed.

Lemma page_block_head i p :
  exists r,
    page_block image_text_dict i p
    = lit "--- Page " ++ str_of_nat (i + 1) ++ lit " --" ++ [45%N] ++ r.
Proof. unfold page_block. eexists. reflexivity. Qed.

Lemma page_block_last i p :
  exists r, page_block image_text_dict i p = r ++ [NL].
Proof.
  unfold page_block. eexists. rewrite !app_assoc. reflexivity.
Qed.

Lemma merge_loop_last i pages acc :
  pages <> [] ->
  exists pre, merge_loop image_text_dict i pages acc = pre ++ [NL].
Proof.
  revert i acc. induction pages as [|p ps IH]; intros i acc Hne;
    [congruence|].
  destruct ps as [|q ps].
  - simpl. destruct (page_block_last i p) as (r & ->).
    exists (acc ++ r). now rewrite app_assoc.
  - apply (IH (S i)). discriminate.
Qed.

Lemma rstrip_app_keep (a : str) (c : N) (b : str) :
  isspace c = false ->
  exists post, rstrip ((a ++ [c]) ++ b) = (a ++ [c]) ++ post.
Proof.
  intros Hc. induction a as [|x a (post & IH)]; simpl.
  - exists (rstrip b). destruct (rstrip b); [now rewrite Hc | reflexivity].
  - exists post. simpl in IH. rewrite IH.
    destruct (a ++ [c]) eqn:Ha; [now destruct a|]. reflexivity.
Qed.

Lemma startswith_app (p r : str) : startswith (p ++ r) p = true.
Proof.
  induction p as [|c p IH]; simpl; [now destruct r|].
  now rewrite N.eqb_refl.
Qed.

End MergeFacts.

(** C10: in the merged text of a document, the marker of every page
    after the first comes right after the newline that ends what was
    merged for the pages before it, and starts with ["--- Page "]; the
    separator [page_sep] that the splitter looks for occurs there. *)
Theorem merge_page_markers (pdf_text_pages : list str)
    (image_text_dict : gmap Z str) (k : nat) :
  (1 <= k < length pdf_text_pages)%nat ->
  exists pre post,
    PDFProcessor.merge_loop image_text_dict 0 (take k pdf_text_pages) []
    = pre ++ [NL]
    /\ PDFProcessor.merge_text_and_images pdf_text_pages image_text_dict
       = pre ++ page_sep ++ lit " " ++ str_of_nat (k + 1) ++ lit " ---"
           ++ post
    /\ startswith
         (drop (length pre)
            (PDFProcessor.merge_text_and_images pdf_text_pages
               image_text_dict))
         page_sep = true.
Proof.
  intros Hk.
  destruct (lookup_lt_is_Some_2 pdf_text_pages k) as [page Hpage]; [lia|].
  pose proof (take_drop_middle _ _ _ Hpage) as Hsplit.
  set (done := take k pdf_text_pages) in *.
  assert (Hdone : done <> []).
  { intros E. apply (f_equal length) in E. unfold done in E.
    rewrite length_take in E. simpl in E. lia. }
  destruct (merge_loop_last image_text_dict 0 done [] Hdone) as (pre & Hpre).
  destruct (page_block_head image_text_dict k page) as (r & Hblock).
  set (rest := drop (S k) pdf_text_pages) in *.
  assert (Hraw : PDFProcessor.merge_loop image_text_dict 0 pdf_text_pages []
            = ((pre ++ [NL] ++ lit "--- Page " ++ str_of_nat (k + 1)
                  ++ lit " --") ++ [45%N])
              ++ r ++ PDFProcessor.merge_loop image_text_dict (S k) rest []).
  { rewrite <- Hsplit at 1.
    rewrite merge_loop_app, Hpre, merge_loop_cons.
    replace (0 + length done)%nat with k
      by (unfold done; rewrite length_take; lia).
    rewrite merge_loop_acc, Hblock.
    rewrite <- !app_assoc. reflexivity. }
  assert (Hhead : exists t,
            PDFProcessor.merge_loop image_text_dict 0 pdf_text_pages []
            = 45%N :: t).
  { rewrite <- Hsplit. rewrite merge_loop_app.
    rewrite merge_loop_acc. destruct done as [|p0 ps]; [congruence|].
    rewrite merge_loop_cons, (merge_loop_acc _ _ _ ([] ++ _)).
    destruct (page_block_head image_text_dict 0 p0) as (r0 & ->).
    eexists. reflexivity. }
  destruct (rstrip_app_keep
              (pre ++ [NL] ++ lit "--- Page " ++ str_of_nat (k + 1)
                 ++ lit " --") 45%N
              (r ++ PDFProcessor.merge_loop image_text_dict (S k) rest [])
              eq_refl) as (post & Hpost).
  assert (Hmerged :
            PDFProcessor.merge_text_and_images pdf_text_pages image_text_dict
            = pre ++ page_sep ++ lit " " ++ str_of_nat (k + 1) ++ lit " ---"
                ++ post).
  { unfold PDFProcessor.merge_text_and_images, strip.
    destruct Hhead as (t & Hhead).
    rewrite (lstrip_clean _) by (rewrite Hhead; reflexivity).
    rewrite Hraw, Hpost. rewrite <- !app_assoc. reflexivity. }
  exists pre, post. split; [exact Hpre|]. split; [exact Hmerged|].
  rewrite Hmerged, drop_app_length. apply startswith_app.
Qed.

Lemma merge_page_markers_witness :
  let pages := [lit "first page"; lit "second page"] in
  (1 <= 1 < length pages)%nat
  /\ exists pre post,
       PDFProcessor.merge_loop ∅ 0 (take 1 pages) [] = pre ++ [NL]
       /\ PDFProcessor.merge_text_and_images pages ∅
          = pre ++ page_sep ++ lit " " ++ str_of_nat (1 + 1) ++ lit " ---"
              ++ post
       /\ startswith
            (drop (length pre) (PDFProcessor.merge_text_and_images pages ∅))
            page_sep = true.
Proof.
  intros pages. split; [simpl; lia|].
  apply (merge_page_markers pages ∅ 1). simpl. lia.
Defined.

(* ===================================================================== *)
(** ** The request client *)
(* ===================================================================== *)

Section ClientFacts.

Variable net : list event -> post_request -> post_result.
Variable json_str : json -> str.
Variable response_error_msg : str -> response -> str.
Variable runtime_msg : str -> json -> str.

(** Reading a parsed response gives its trimmed content when it has
    one; otherwise it gives a string with the error prefix or raises an
    exception that the clauses turn into a string. *)
Lemma read_response_spec (v : json) :
  match read_response json_str runtime_msg v, content_of_json v with
  | Return s, Some content => s = strip content
  | Return s, None => is_error s = true
  | Raise e, None => clause_escape e = None
  | _, _ => False
  end.
Proof.
  unfold read_response, has_choices.
  destruct v as [| b | z | m e | s | l | d]; read_step.
  - reflexivity.
  - destruct b; read_step; [reflexivity | reflexivity].
  - destruct (z =? 0); read_step; [reflexivity | reflexivity].
  - destruct (m =? 0); read_step; [reflexivity | reflexivity].
  - destruct s as [|c s]; read_step; [reflexivity|].
    destruct (occurs _ _); read_step; [reflexivity | reflexivity].
  - destruct l as [|x l]; read_step; [reflexivity|].
    destruct (existsb _ _); read_step; [reflexivity | reflexivity].
  - destruct d as [|kv d']; read_step; [reflexivity|].
    set (d := kv :: d').
    destruct (dict_lookup d (lit "choices")) as [choices|] eqn:Hch;
      read_step; [|reflexivity].
    destruct choices as [| [] | cz | cm ce | [|c cs] | [|choice cl] | [|kv' cd]];
      read_step; try reflexivity; try reflexivity.
    + destruct (cz =? 0); read_step; [reflexivity | reflexivity].
    + destruct (cm =? 0); read_step; [reflexivity | reflexivity].
    + destruct choice as [| | | | | | choice]; read_step; try reflexivity.
      destruct (dict_lookup choice (lit "message")) as [message|] eqn:Hm;
        read_step; [|read_finish].
      destruct message as [| | | | | | message]; read_step; try reflexivity.
      destruct (dict_lookup message (lit "content")) as [content|];
        read_step; [|read_finish].
      destruct content as [| [] | cz | cm ce | [|c s] | [|] | [|]];
        read_step; try reflexivity; try read_finish; try reflexivity.
      * destruct (cz =? 0); read_step; [read_finish | reflexivity].
      * destruct (cm =? 0); read_step; [read_finish | reflexivity].
Qed.

(** The handler of an HTTP error leaves the events as they are. It
    raises what [json()] raises past it, and returns a string with the
    error prefix otherwise. *)
Lemma on_http_error_spec (msg : str) (r : response) (tr : list event) :
  match handler_escape r with
  | Some e => on_http_error json_str msg r tr = (Raise e, tr)
  | None =>
      exists s,
        on_http_error json_str msg r tr = (Return s, tr)
        /\ is_error s = true
  end.
Proof.
  unfold handler_escape, on_http_error, try_except, bind, lift,
    response_json, rbind, ret.
  destruct (json_body r) as [v|e];
    [eexists; split; reflexivity|].
  destruct e; try reflexivity. eexists. split; reflexivity.
Qed.

(** Every exception has its clause; the clause returns a string with
    the error prefix, unless it is the handler of an HTTP error and
    [json()] raises past it. *)
Lemma on_exception_spec (e : exn) (tr : list event) :
  exists h,
    on_exception json_str e = Some h
    /\ match clause_escape e with
       | Some e' => h tr = (Raise e', tr)
       | None => exists s, h tr = (Return s, tr) /\ is_error s = true
       end.
Proof.
  destruct e as [msg | msg r | msg | msg | msg | msg | msg | msg | msg | msg];
    cbn [on_exception clause_escape];
    try (eexists; split; [reflexivity|]; eexists; split; reflexivity).
  exists (on_http_error json_str msg r). split; [reflexivity|].
  apply on_http_error_spec.
Qed.

(** What the [except] clauses make of an exception raised in the [try]
    block. *)
Lemma handled_spec (e : exn) (tr : list event) :
  match clause_escape e with
  | Some e' => handled json_str e tr = (Raise e', tr)
  | None =>
      exists s, handled json_str e tr = (Return s, tr) /\ is_error s = true
  end.
Proof.
  unfold handled.
  destruct (on_exception_spec e tr) as (h & -> & Hh). exact Hh.
Qed.

(** What one call does. It adds [call_events] to the run. Without a key
    it returns the fixed message. With a key it raises the exception
    that leaves the handler of an HTTP error, if there is one; otherwise
    it returns the trimmed content of the response when there is
    content, and a string with the error prefix in every other case. *)
Lemma send_spec (api_key : option str) (prompt_content context_info : str)
    (tr : list event) :
  let res :=
    net (tr ++ [EvSend prompt_content context_info])
      (request_of (key_text api_key) prompt_content context_info) in
  let run :=
    _send_api_request net json_str response_error_msg runtime_msg api_key
      prompt_content context_info tr in
  let tr' := tr ++ call_events api_key prompt_content context_info in
  if key_missing api_key then
    run = (Return (lit "Error: API Key not provided to APIClient."), tr')
  else
    match escape_of res with
    | Some e => run = (Raise e, tr')
    | None =>
        exists s,
          run = (Return s, tr')
          /\ match content_of_result res with
             | Some content => s = strip content
             | None => is_error s = true
             end
    end.
Proof.
  intros res run tr'. unfold run, tr', res.
  unfold _send_api_request, call_events, bind, emit.
  destruct (key_missing api_key) eqn:Hkey; [reflexivity|].
  unfold try_except, try_block, bind, post, lift, content_of_result,
    escape_of.
  set (rq := request_of _ _ _). set (tr1 := tr ++ [EvSend _ _]).
  replace (tr ++ [EvSend prompt_content context_info; EvPost rq])
    with (tr1 ++ [EvPost rq])
    by (unfold tr1; now rewrite <- app_assoc).
  fold (handled json_str).
  assert (Hh : forall e,
    match on_exception json_str e with
    | Some h => h (tr1 ++ [EvPost rq])
    | None => (Raise e, tr1 ++ [EvPost rq])
    end = handled json_str e (tr1 ++ [EvPost rq])) by reflexivity.
  destruct (net tr1 rq) as [e | r]; cbv beta iota.
  { rewrite Hh. pose proof (handled_spec e (tr1 ++ [EvPost rq])) as H.
    destruct (clause_escape e); [exact H|].
    destruct H as (s & -> & He). now exists s. }
  unfold raise_for_status.
  destruct ((400 <=? status_code r) && (status_code r <? 600)); cbv beta iota.
  { rewrite Hh.
    pose proof (handled_spec
                  (HTTPError (response_error_msg (lit "raise_for_status") r) r)
                  (tr1 ++ [EvPost rq])) as H.
    cbn [clause_escape] in H.
    destruct (handler_escape r); [exact H|].
    destruct H as (s & -> & He). now exists s. }
  unfold response_json. destruct (json_body r) as [v|e]; cbv beta iota.
  2:{ rewrite Hh. pose proof (handled_spec e (tr1 ++ [EvPost rq])) as H.
      destruct (clause_escape e); [exact H|].
      destruct H as (s & -> & He). now exists s. }
  pose proof (read_response_spec v) as Hread.
  destruct (read_response json_str runtime_msg v) as [s | e |];
    destruct (content_of_json v) as [content|]; try contradiction;
    cbv beta iota.
  - now exists s.
  - now exists s.
  - rewrite Hh. pose proof (handled_spec e (tr1 ++ [EvPost rq])) as H.
    rewrite Hread in H. destruct H as (s & -> & He). now exists s.
Qed.

(** A call adds its events whether it returns or raises. *)
Lemma send_events (api_key : option str) (prompt_content context_info : str)
    (tr : list event) :
  snd (_send_api_request net json_str response_error_msg runtime_msg api_key
         prompt_content context_info tr)
  = tr ++ call_events api_key prompt_content context_info.
Proof.
  pose proof (send_spec api_key prompt_content context_info tr) as H.
  cbv zeta in H. destruct (key_missing api_key); [now rewrite H|].
  destruct (escape_of _); [now rewrite H|].
  destruct H as (s & -> & _). reflexivity.
Qed.

End ClientFacts.




(* ===================================================================== *)
(** ** The orchestrator *)
(* ===================================================================== *)

Section OrchestratorFacts.

Variable net : list event -> post_request -> post_result.
Variable json_str : json -> str.
Variable response_error_msg : str -> response -> str.
Variable runtime_msg : str -> json -> str.
Variable api_key : option str.
Variable custom_instruction : str.

#[local] Abbreviation send :=
  (_send_api_request net json_str response_error_msg runtime_msg api_key).
#[local] Abbreviation reply_to :=
  (reply net json_str response_error_msg runtime_msg api_key).
#[local] Abbreviation replies_of :=
  (chunk_replies net json_str response_error_msg runtime_msg api_key
     custom_instruction).
#[local] Abbreviation trace_of := (chunk_trace api_key custom_instruction).
#[local] Abbreviation loop :=
  (chunk_loop net json_str response_error_msg runtime_msg api_key
     custom_instruction).
#[local] Abbreviation returns_to :=
  (returns net json_str response_error_msg runtime_msg api_key).
#[local] Abbreviation calls_return :=
  (chunk_calls_return net json_str response_error_msg runtime_msg api_key
     custom_instruction).

(** A call that returns gives its reply and adds its events. *)
Lemma send_eq (p c : str) (tr : list event) :
  returns_to p c tr = true ->
  send p c tr = (Return (reply_to p c tr), tr ++ call_events api_key p c).
Proof.
  unfold returns, reply.
  pose proof (send_events net json_str response_error_msg runtime_msg
                api_key p c tr) as Hev.
  destruct (send p c tr) as [[s|e|] tr']; cbn [fst snd] in *;
    intros H; try discriminate.
  now subst tr'.
Qed.


Lemma posts_app (tr1 tr2 : list event) :
  posts (tr1 ++ tr2) = posts tr1 ++ posts tr2.
Proof.
  induction tr1 as [|[] tr1 IH]; simpl; [reflexivity|assumption| |assumption].
  now rewrite IH.
Qed.

Lemma length_chunk_replies (n i : nat) (chunks : list str) (tr : list event) :
  length (replies_of n i chunks tr) = length chunks.
Proof.
  revert i tr. induction chunks as [|chunk rest IH]; intros i tr; simpl;
    [reflexivity|]. now rewrite IH.
Qed.

(** When its calls return, the loop returns: one entry per chunk, in
    order, after the entries it started with; the flag is raised by a
    reply with the error prefix. *)
Lemma chunk_loop_spec (n i : nat) (chunks sums : list str) (he : bool)
    (tr : list event) :
  calls_return n i chunks tr = true ->
  loop n i chunks sums he tr
  = (Return (sums ++ imap (fun j r => summary_entry (i + j + 1) r)
                       (replies_of n i chunks tr),
             he || existsb is_error (replies_of n i chunks tr)),
     trace_of n i chunks tr).
Proof.
  revert i sums he tr.
  induction chunks as [|chunk rest IH]; intros i sums he tr Hret.
  - simpl. unfold ret. now rewrite app_nil_r, orb_false_r.
  - cbn [chunk_calls_return] in Hret. apply andb_prop in Hret as [Hc Hrest].
    cbn [chunk_loop chunk_replies chunk_trace]. unfold bind at 1.
    rewrite send_eq by exact Hc. cbv beta iota. unfold bind at 1, emit.
    cbv beta iota. rewrite IH by exact Hrest.
    set (r := reply_to _ _ tr). set (rs := replies_of n (S i) rest _).
    assert (Hl : [summary_entry (i + 1) r]
                 ++ imap (fun j x => summary_entry (S i + j + 1) x) rs
                 = imap (fun j x => summary_entry (i + j + 1) x) (r :: rs)).
    { cbn [imap app]. rewrite Nat.add_0_r. f_equal.
      apply imap_ext. intros j x _. simpl. f_equal. lia. }
    assert (Hb : (if startswith r (lit "Error:") then true else he)
                 || existsb is_error rs
                 = he || existsb is_error (r :: rs)).
    { cbn [existsb]. unfold is_error at 2.
      destruct (startswith r (lit "Error:")), he; reflexivity. }
    rewrite <- (app_assoc sums), Hl, Hb. reflexivity.
Qed.

(** The loop only adds events, whether it returns or not. *)
Lemma chunk_loop_extends (n i : nat) (chunks sums : list str) (he : bool)
    (tr : list event) :
  exists evs, snd (loop n i chunks sums he tr) = tr ++ evs.
Proof.
  revert i sums he tr.
  induction chunks as [|chunk rest IH]; intros i sums he tr.
  - exists []. simpl. now rewrite app_nil_r.
  - cbn [chunk_loop]. unfold bind at 1.
    pose proof (send_events net json_str response_error_msg runtime_msg
                  api_key (chunk_prompt custom_instruction chunk)
                  (chunk_context (i + 1) n) tr) as Hev.
    destruct (send _ _ tr) as [[s|e|] tr1]; cbn [snd] in Hev; subst tr1;
      [|eexists; reflexivity..].
    unfold bind at 1, emit. cbv beta iota.
    match goal with
    | |- context [loop n (S i) rest ?a ?b ?t] =>
        destruct (IH (S i) a b t) as (evs & ->)
    end.
    eexists. rewrite <- !app_assoc. reflexivity.
Qed.


Lemma posts_chunk_trace (n i : nat) (chunks : list str) (tr : list event) :
  posts (trace_of n i chunks tr)
  = posts tr
    ++ (if key_missing api_key then []
        else imap (fun j chunk =>
                     request_of (key_text api_key)
                       (chunk_prompt custom_instruction chunk)
                       (chunk_context (i + j + 1) n)) chunks).
Proof.
  revert i tr. induction chunks as [|chunk rest IH]; intros i tr.
  - simpl. destruct (key_missing api_key); now rewrite app_nil_r.
  - cbn [chunk_trace imap]. rewrite IH, !posts_app. unfold call_events.
    destruct (key_missing api_key); cbn [posts];
      rewrite !app_nil_r; [reflexivity|].
    rewrite <- app_assoc. cbn [app]. rewrite Nat.add_0_r. do 2 f_equal.
    apply imap_ext. intros j x _. simpl. do 2 f_equal. lia.
Qed.


Lemma nonspace_concat_in (pieces : list str) (p : str) :
  In p pieces -> nonspace p <> [] -> nonspace (concat pieces) <> [].
Proof.
  induction pieces as [|q pieces IH]; simpl; [easy|].
  intros [-> | Hin] Hp; rewrite nonspace_app; intros E;
    apply app_eq_nil in E as [E1 E2]; [congruence | now apply IH].
Qed.

Lemma strip_nonspace (p : str) : strip p <> [] -> nonspace (strip p) <> [].
Proof.
  pose proof (clean_rstrip _ (clean_lstrip p)) as Hc. fold (strip p) in Hc.
  destruct (strip p) as [|c s]; [congruence|]. simpl in *.
  rewrite Hc. discriminate.
Qed.

(** A text that the splitter cuts into two chunks or more is not blank. *)
Lemma multi_chunk_not_blank (text : str) (chunks : list str) :
  _split_text_into_chunks text = Some chunks -> (2 <= length chunks)%nat ->
  truthy text = true /\ truthy (strip text) = true.
Proof.
  intros Hsplit Hn.
  destruct (Z.le_gt_cases (len text) MAX_CHARS_PER_CHUNK) as [Hs | Hl].
  { rewrite split_short in Hsplit by assumption.
    injection Hsplit as <-. destruct text; simpl in Hn; lia. }
  destruct (split_long text Hl) as (pieces & Heq & Hcat & _).
  rewrite Heq in Hsplit. injection Hsplit as <-.
  split; [apply truthy_len; pose proof MAX_pos; lia|].
  destruct (List.filter truthy (List.map strip pieces)) as [|c cs] eqn:Hf;
    [simpl in Hn; lia|].
  assert (Hin : In c (List.filter truthy (List.map strip pieces)))
    by (rewrite Hf; now left).
  apply List.filter_In in Hin as [Hin Ht].
  apply List.in_map_iff in Hin as (p & <- & Hp).
  apply truthy_true in Ht. apply truthy_true. intros Hblank.
  apply (nonspace_concat_in pieces p Hp).
  - rewrite <- nonspace_strip. now apply strip_nonspace.
  - rewrite Hcat, <- nonspace_strip, Hblank. reflexivity.
Qed.

(** A run over two chunks or more is the loop and what follows it. *)
Lemma summarize_loop (text : str) (chunks : list str) (tr : list event) :
  _split_text_into_chunks text = Some chunks -> (2 <= length chunks)%nat ->
  summarize_text net json_str response_error_msg runtime_msg api_key text
    custom_instruction tr
  = match loop (length chunks) 0 chunks [] false tr with
    | (Return (chunk_summaries, has_errors), tr') =>
        if negb (match chunk_summaries with [] => false | _ => true end)
        then (Return (lit "Error: Failed to get summaries for any chunk."),
              tr')
        else if (len (join summaries_sep chunk_summaries)
                   >? MAX_COMBINED_SUMMARY_CHARS) || has_errors
        then (Return (skip_prefix ++ join summaries_sep chunk_summaries),
              tr')
        else send (final_prompt custom_instruction
                     (join summaries_sep chunk_summaries)) [] tr'
    | (Raise e, tr') => (Raise e, tr')
    | (Stuck, tr') => (Stuck, tr')
    end.
Proof.
  intros Hsplit Hn.
  destruct (multi_chunk_not_blank text chunks Hsplit Hn) as [Ht Hs].
  unfold summarize_text. rewrite Ht, Hs, Hsplit. cbn [negb orb].
  destruct chunks as [|c1 [|c2 rest]]; [simpl in Hn; lia..|].
  unfold bind at 1.
  destruct (loop _ 0 (c1 :: c2 :: rest) [] false tr) as [[[sums he]|e|] tr'];
    try reflexivity.
  cbn [fst snd]. destruct sums; [reflexivity|]. cbn [negb].
  now destruct (_ || _).
Qed.

(** A run over two chunks or more whose calls in the loop return: the
    loop, then the skip notice before the combined summaries, or the
    synthesis request. *)
Lemma summarize_multi (text : str) (chunks : list str) (tr : list event) :
  _split_text_into_chunks text = Some chunks -> (2 <= length chunks)%nat ->
  calls_return (length chunks) 0 chunks tr = true ->
  let n := length chunks in
  let combined := join summaries_sep (entries (replies_of n 0 chunks tr)) in
  summarize_text net json_str response_error_msg runtime_msg api_key text
    custom_instruction tr
  = if (len combined >? MAX_COMBINED_SUMMARY_CHARS)
       || existsb is_error (replies_of n 0 chunks tr)
    then (Return (skip_prefix ++ combined), trace_of n 0 chunks tr)
    else send (final_prompt custom_instruction combined) []
           (trace_of n 0 chunks tr).
Proof.
  intros Hsplit Hn Hret n combined.
  rewrite (summarize_loop text chunks tr Hsplit Hn).
  rewrite chunk_loop_spec by exact Hret. cbn [app orb].
  change (imap (fun j r => summary_entry (0 + j + 1) r))
    with entries.
  fold n. fold combined.
  destruct (entries (replies_of n 0 chunks tr)) eqn:He.
  - apply (f_equal length) in He. unfold entries in He.
    rewrite length_imap, length_chunk_replies in He.
    destruct chunks; [simpl in Hn; lia | discriminate].
  - cbn [negb]. reflexivity.
Qed.

End OrchestratorFacts.

(** *** The properties of the specification *)

(** C4, the code at a failing run. The text has two chunks, and the
    reply to the request for the first chunk has status 500 and a body
    on which [json()] raises [RecursionError]. The exception leaves
    [summarize_text]: one request is made, not two, and there is no
    result. *)
Theorem summarize_multi_chunk_aborts :
  let run :=
    summarize_text net_nested_error plain_json_str plain_response_msg
      plain_runtime_msg sample_key two_chunk_text sample_instruction [] in
  _split_text_into_chunks two_chunk_text = Some two_chunks
  /\ fst run = Raise recursion_error
  /\ sends (snd run)
     = [(chunk_prompt sample_instruction (repeat 120%N 15000),
         chunk_context 1 2)]
  /\ length (posts (snd run)) = 1%nat.
Proof.
  intros run. unfold run.
  split; [by_vm|]. split; [by_vm|]. split; by_vm.
Qed.

(** C9, the code at the same failing run: the loop over the two chunks
    is left by the exception of the first request, so that it yields no
    list of summaries at all. *)
Theorem chunk_loop_aborts :
  let run :=
    chunk_loop net_nested_error plain_json_str plain_response_msg
      plain_runtime_msg sample_key sample_instruction 2 0 two_chunks
      [] false [] in
  _split_text_into_chunks two_chunk_text = Some two_chunks
  /\ fst run = Raise recursion_error
  /\ forall chunk_summaries has_errors,
       fst run <> Return (chunk_summaries, has_errors).
Proof.
  intros run. unfold run.
  assert (H : fst (chunk_loop net_nested_error plain_json_str
                     plain_response_msg plain_runtime_msg sample_key
                     sample_instruction 2 0 two_chunks [] false [])
              = Raise recursion_error) by by_vm.
  split; [by_vm|]. split; [exact H|].
  intros sums he. rewrite H. discriminate.
Qed.









(* ===================================================================== *)
(** ** Further properties of the splitter *)
(* ===================================================================== *)

Section MoreSplitterFacts.

Lemma lstrip_spaces (s : str) : forallb isspace s = true -> lstrip s = [].
Proof.
  induction s as [|c s IH]; simpl; [reflexivity|].
  intros H. apply andb_prop in H as [-> H]. now apply IH.
Qed.

Lemma strip_spaces (s : str) : forallb isspace s = true -> strip s = [].
Proof. intros H. unfold strip. now rewrite lstrip_spaces. Qed.

Lemma strip_nil_spaces (s : str) : strip s = [] -> forallb isspace s = true.
Proof.
  intros H. destruct (strip_split s) as (w1 & w2 & Hs & H1 & H2).
  rewrite H in Hs. simpl in Hs. subst s. now rewrite forallb_app, H1, H2.
Qed.

Lemma spaces_concat (pieces : list str) :
  (forall p, In p pieces -> forallb isspace p = true) ->
  forallb isspace (concat pieces) = true.
Proof.
  induction pieces as [|p ps IH]; simpl; intros H; [reflexivity|].
  rewrite forallb_app, (H p) by now left. simpl.
  apply IH. intros q Hq. apply H. now right.
Qed.

Lemma filter_truthy_nil (l : list str) :
  List.filter truthy l = [] -> forall c, In c l -> c = [].
Proof.
  induction l as [|x l IH]; simpl; intros H c Hc; [contradiction|].
  destruct x as [|a x]; simpl in H; [|discriminate].
  destruct Hc as [<- | Hc]; [reflexivity | now apply IH].
Qed.

(** A list whose elements are all white space and all not white space
    is empty. *)
Lemma spaces_and_not (s : str) :
  forallb isspace s = true ->
  forallb (fun c => negb (isspace c)) s = true -> s = [].
Proof.
  destruct s as [|c s]; simpl; [reflexivity|].
  destruct (isspace c); simpl; intros; discriminate.
Qed.

Lemma chunking_exact (pieces cs : list str) :
  chunking pieces cs -> no_space (concat pieces) = true ->
  concat cs = concat pieces.
Proof.
  unfold no_space.
  induction 1 as [|p c ps cs (w1 & w2 & Hp & H1 & H2) _ IH|p ps cs Hp _ IH];
    simpl; intros Hall; [reflexivity| |];
    rewrite forallb_app in Hall; apply andb_prop in Hall as [Hp' Hps].
  - rewrite (IH Hps). subst p. rewrite !forallb_app in Hp'.
    apply andb_prop in Hp' as [Hw1 Hp']. apply andb_prop in Hp' as [_ Hw2].
    rewrite (spaces_and_not w1 H1 Hw1), (spaces_and_not w2 H2 Hw2).
    simpl. now rewrite app_nil_r.
  - rewrite (IH Hps), (spaces_and_not p Hp Hp'). reflexivity.
Qed.

(** What the splitter returns, on its two paths. *)
Lemma split_cases (text : str) :
  exists chunks pieces,
    _split_text_into_chunks text = Some chunks
    /\ concat pieces = text /\ chunking pieces chunks
    /\ (chunks = [] -> forall p, In p pieces -> forallb isspace p = true).
Proof.
  destruct (Z.le_gt_cases (len text) MAX_CHARS_PER_CHUNK) as [Hs | Hl].
  - rewrite split_short by assumption. destruct text as [|c t].
    + exists [], []. repeat split; [constructor | intros _ p []].
    + exists [c :: t], [c :: t]. split; [reflexivity|]. split; [|split].
      * simpl. now rewrite app_nil_r.
      * apply chunking_keep; [|constructor].
        exists [], []. simpl. now rewrite app_nil_r.
      * discriminate.
  - destruct (split_long text Hl) as (pieces & Heq & Hcat & _).
    eexists. exists pieces. split; [exact Heq|]. split; [exact Hcat|].
    split; [apply chunking_strip|].
    intros Hnil p Hp. apply strip_nil_spaces.
    apply (filter_truthy_nil _ Hnil). now apply List.in_map.
Qed.

(** *** Windows *)

Lemma slice_clamp (s : str) (a b : Z) :
  0 <= b -> slice s a (Z.min b (len s)) = slice s a b.
Proof.
  intros Hb. unfold slice, clamp_index. pose proof (len_nonneg s).
  destruct (Z.ltb_spec (Z.min b (len s)) 0); [lia|].
  destruct (Z.ltb_spec b 0); [lia|].
  now replace (Z.min (Z.min b (len s)) (len s)) with (Z.min b (len s)) by lia.
Qed.

Lemma ceil_div_between (a b : Z) (k : nat) :
  0 < b -> Z.of_nat k * b < a <= (Z.of_nat k + 1) * b ->
  Z.to_nat (ceil_div a b) = S k.
Proof.
  intros Hb Hk. unfold ceil_div.
  rewrite <- (Z.div_unique (a + b - 1) b (Z.of_nat k + 1)
             (a + b - 1 - b * (Z.of_nat k + 1))); [lia | | lia].
  left. nia.
Qed.

Lemma seq_snoc (k : nat) : seq 0 (S k) = seq 0 k ++ [k].
Proof. now rewrite seq_S. Qed.

Lemma window_chunks_snoc (text : str) (ks : list nat) (k : nat) :
  window_chunks text (ks ++ [k])
  = append_chunk (window_chunks text ks) (strip (window text k)).
Proof.
  unfold window_chunks. rewrite List.map_app. simpl.
  symmetry. apply append_chunk_pieces.
Qed.

(** Without separators the loop cuts at the multiples of the budget:
    started at the multiple [k] with the chunks of the windows before
    it, it ends with the chunks of all windows. *)
Lemma while_loop_windows (text : str) (fuel : nat) (k : nat)
    (st st' : loop_state) (n : nat) :
  marker_free text = true ->
  current_pos st = Z.of_nat k * MAX_CHARS_PER_CHUNK ->
  current_pos st < len text ->
  chunks st = window_chunks text (seq 0 k) ->
  while_loop text fuel st = Some (st', n) ->
  chunks st'
  = window_chunks text
      (seq 0 (Z.to_nat (ceil_div (len text) MAX_CHARS_PER_CHUNK))).
Proof.
  intros Hfree. pose proof MAX_pos as HM.
  revert k st st' n. induction fuel as [|fuel IH];
    intros k st st' n Hcur Hlt Hch; simpl.
  - destruct (Z.ltb_spec (current_pos st) (len text)); [easy | lia].
  - destruct (Z.ltb_spec (current_pos st) (len text)); [|lia].
    unfold loop_body.
    rewrite (split_pos_free text Hfree) by lia.
    set (e := Z.min (current_pos st + MAX_CHARS_PER_CHUNK) (len text)).
    assert (Hw : slice text (current_pos st) e = window text k).
    { unfold e, window. rewrite slice_clamp by lia. rewrite Hcur.
      f_equal. lia. }
    rewrite Hw, Hch, <- window_chunks_snoc, <- seq_snoc.
    rewrite Z.eqb_refl. cbn [andb].
    destruct (Z.eqb_spec e (len text)) as [He|He].
    { intros [= <- <-]. cbn [chunks].
      rewrite (ceil_div_between (len text) MAX_CHARS_PER_CHUNK k);
        [reflexivity | lia | lia]. }
    destruct (Z.geb_spec e (len text)); [lia|].
    destruct (Z.leb_spec e e); [|lia].
    destruct (Z.ltb_spec e (len text)); [|lia]. cbn [andb].
    set (e2 := Z.min (e + MAX_CHARS_PER_CHUNK) (len text)).
    assert (Hw2 : slice text e e2 = window text (S k)).
    { unfold e2, window. rewrite slice_clamp by lia.
      f_equal; lia. }
    rewrite Hw2, <- window_chunks_snoc, <- seq_snoc.
    destruct (Z.lt_ge_cases e2 (len text)) as [Hin|Hout].
    + set (st2 := mk_state _ e2).
      destruct (while_loop text fuel st2) as [[st'' m]|] eqn:Hrun; [|easy].
      intros [= <- <-].
      apply (IH (S (S k)) st2 st'' m);
        [unfold st2; cbn [current_pos]; lia | exact Hin
        | reflexivity | exact Hrun].
    + set (st2 := mk_state _ e2).
      assert (Hstop : while_loop text fuel st2 = Some (st2, 0%nat)).
      { destruct fuel; cbn [while_loop]; unfold st2; cbn [current_pos];
          destruct (Z.ltb_spec e2 (len text)); (lia || reflexivity). }
      rewrite Hstop. intros [= <- <-]. unfold st2. cbn [chunks].
      rewrite (ceil_div_between (len text) MAX_CHARS_PER_CHUNK (S k));
        [reflexivity | lia | lia].
Qed.

End MoreSplitterFacts.

(** X1: for a text that is not blank, [_split_text_into_chunks] returns
    at least one chunk. *)
Theorem split_nonblank_has_chunk (text : str) :
  truthy (strip text) = true ->
  exists chunk rest, _split_text_into_chunks text = Some (chunk :: rest).
Proof.
  intros Hnb. destruct (split_cases text)
    as (chunks & pieces & Heq & Hcat & _ & Hnil).
  destruct chunks as [|chunk rest]; [|eauto].
  exfalso. specialize (Hnil eq_refl).
  rewrite <- Hcat, (strip_spaces _ (spaces_concat _ Hnil)) in Hnb.
  discriminate.
Qed.

Lemma split_nonblank_has_chunk_witness :
  truthy (strip (lit " a ")) = true
  /\ exists chunk rest,
       _split_text_into_chunks (lit " a ") = Some (chunk :: rest).
Proof.
  split; [reflexivity|].
  apply (split_nonblank_has_chunk (lit " a ")). reflexivity.
Defined.

(** X2: for a text without white space, of any length, the chunks put
    together are the text itself, character for character. *)
Theorem split_exact_without_space (text : str) :
  no_space text = true ->
  exists chunks,
    _split_text_into_chunks text = Some chunks /\ concat chunks = text.
Proof.
  intros Hns. destruct (split_cases text)
    as (chunks & pieces & Heq & Hcat & Hch & _).
  exists chunks. split; [exact Heq|].
  rewrite <- Hcat. apply chunking_exact; [exact Hch | now rewrite Hcat].
Qed.

Lemma split_exact_without_space_witness :
  no_space (repeat 120%N 15001) = true
  /\ exists chunks,
       _split_text_into_chunks (repeat 120%N 15001) = Some chunks
       /\ concat chunks = repeat 120%N 15001.
Proof.
  assert (H : no_space (repeat 120%N 15001) = true) by by_vm.
  split; [exact H|]. exact (split_exact_without_space _ H).
Defined.

(** X3: for a text longer than the budget in which no separator occurs, the
    cuts fall at the multiples of [MAX_CHARS_PER_CHUNK]: the chunks are
    the windows of the text, trimmed, the empty ones left out. *)
Theorem split_hard_cuts (text : str) :
  marker_free text = true -> MAX_CHARS_PER_CHUNK < len text ->
  _split_text_into_chunks text
  = Some (List.filter truthy (List.map strip (windows text))).
Proof.
  intros Hfree Hlong. pose proof MAX_pos as HM.
  unfold _split_text_into_chunks, split_with_fuel.
  rewrite truthy_len by lia.
  destruct (Z.leb_spec (len text) MAX_CHARS_PER_CHUNK); [lia|]. simpl.
  destruct (while_loop_spec text (length text) (mk_state [] 0))
    as (st & n & Hrun & _).
  - apply covers_init.
  - simpl. unfold len. lia.
  - rewrite Hrun.
    rewrite (while_loop_windows text (length text) 0 (mk_state [] 0) st n
               Hfree); [|reflexivity|simpl; lia|reflexivity|exact Hrun].
    unfold window_chunks, windows. now rewrite filter_truthy_idem.
Qed.

Lemma split_hard_cuts_witness :
  marker_free (repeat 120%N 40000) = true
  /\ MAX_CHARS_PER_CHUNK < len (repeat 120%N 40000)
  /\ _split_text_into_chunks (repeat 120%N 40000)
     = Some (List.filter truthy
               (List.map strip (windows (repeat 120%N 40000)))).
Proof.
  assert (H1 : marker_free (repeat 120%N 40000) = true) by by_vm.
  assert (H2 : MAX_CHARS_PER_CHUNK < len (repeat 120%N 40000)) by by_vm.
  split; [exact H1|]. split; [exact H2|].
  exact (split_hard_cuts _ H1 H2).
Defined.

(* ===================================================================== *)
(** ** Further properties of the request client *)
(* ===================================================================== *)

Section MoreClientFacts.

Variable net : list event -> post_request -> post_result.
Variable json_str : json -> str.
Variable response_error_msg : str -> response -> str.
Variable runtime_msg : str -> json -> str.
Variable api_key : option str.

#[local] Abbreviation send' :=
  (_send_api_request net json_str response_error_msg runtime_msg api_key).
#[local] Abbreviation reply' :=
  (reply net json_str response_error_msg runtime_msg api_key).

#[local] Abbreviation handled := (handled json_str).

(** The call with a key, step by step. *)
Lemma send_with_key (p c : str) (tr : list event) :
  key_missing api_key = false ->
  let rq := request_of (key_text api_key) p c in
  let tr2 := (tr ++ [EvSend p c]) ++ [EvPost rq] in
  send' p c tr
  = match net (tr ++ [EvSend p c]) rq with
    | PostRaise e => handled e tr2
    | PostReturn r =>
        if (400 <=? status_code r) && (status_code r <? 600)
        then handled
               (HTTPError (response_error_msg (lit "raise_for_status") r) r)
               tr2
        else
          match json_body r with
          | JsonRaises e => handled e tr2
          | JsonValue v =>
              match read_response json_str runtime_msg v with
              | Return s => (Return s, tr2)
              | Raise e => handled e tr2
              | Stuck => (Stuck, tr2)
              end
          end
    end.
Proof.
  intros Hkey rq tr2.
  unfold _send_api_request, bind, emit. rewrite Hkey.
  unfold try_except, try_block, bind, post, lift, handled,
    raise_for_status, response_json.
  fold rq. destruct (net (tr ++ [EvSend p c]) rq) as [e | r];
    cbv beta iota; [reflexivity|].
  destruct ((400 <=? status_code r) && (status_code r <? 600));
    cbv beta iota; [reflexivity|].
  destruct (json_body r) as [v|e]; cbv beta iota; [|reflexivity].
  destruct (read_response json_str runtime_msg v); reflexivity.
Qed.

Lemma send_missing_key (p c : str) (tr : list event) :
  key_missing api_key = true ->
  send' p c tr = (Return missing_key_reply, tr ++ call_events api_key p c).
Proof.
  intros Hkey.
  pose proof (send_spec net json_str response_error_msg runtime_msg api_key
                p c tr) as H.
  cbv zeta in H. now rewrite Hkey in H.
Qed.

Lemma reply_missing_key (p c : str) (tr : list event) :
  key_missing api_key = true -> reply' p c tr = missing_key_reply.
Proof.
  intros Hkey. unfold reply. now rewrite send_missing_key.
Qed.

Lemma returns_missing_key (p c : str) (tr : list event) :
  key_missing api_key = true ->
  returns net json_str response_error_msg runtime_msg api_key p c tr = true.
Proof.
  intros Hkey. unfold returns. now rewrite send_missing_key.
Qed.



End MoreClientFacts.



(** X5: for a response with a status from 400 to 599 the call turns on
    what [json()] does with the body. When [json()] returns, or raises a
    [JSONDecodeError], the call returns a string that starts with
    ["Error: HTTP Error: "] and carries the message of the error, the
    status code and the body, as parsed or as text. When [json()] raises
    another exception, that exception leaves [_send_api_request]. *)
Theorem send_reports_http_error
    (net : list event -> post_request -> post_result)
    (json_str : json -> str) (response_error_msg : str -> response -> str)
    (runtime_msg : str -> json -> str)
    (api_key : option str) (prompt_content context_info : str)
    (tr : list event) (r : response) :
  key_missing api_key = false ->
  net (tr ++ [EvSend prompt_content context_info])
    (request_of (key_text api_key) prompt_content context_info)
  = PostReturn r ->
  400 <= status_code r < 600 ->
  let report :=
    lit "Error: HTTP Error: "
      ++ response_error_msg (lit "raise_for_status") r
      ++ lit ". " ++ lit "Status Code: " ++ str_of_int (status_code r)
      ++ lit ", Response: " in
  fst (_send_api_request net json_str response_error_msg runtime_msg api_key
         prompt_content context_info tr)
  = match json_body r with
    | JsonValue v => Return (report ++ json_str v)
    | JsonRaises (JSONDecodeError _) => Return (report ++ text r)
    | JsonRaises e => Raise e
    end.
Proof.
  intros Hkey Hnet Hstatus report. unfold report.
  rewrite (send_with_key net json_str response_error_msg runtime_msg
             api_key prompt_content context_info tr Hkey).
  cbv zeta. rewrite Hnet.
  replace ((400 <=? status_code r) && (status_code r <? 600)) with true
    by (symmetry; apply andb_true_intro; split;
        [apply Z.leb_le | apply Z.ltb_lt]; lia).
  unfold handled, on_exception, on_http_error, try_except, bind, lift,
    response_json, ret.
  destruct (json_body r) as [v|e]; cbn [fst];
    [now rewrite <- !app_assoc|].
  destruct e; cbn [fst]; try reflexivity. now rewrite <- !app_assoc.
Qed.

Lemma send_reports_http_error_witness :
  let missing :=
    mk_response 404 (lit "not found")
      (JsonRaises (JSONDecodeError (lit "Expecting value"))) in
  (400 <= status_code missing < 600
   /\ fst (_send_api_request (fun _ _ => PostReturn missing) plain_json_str
             plain_response_msg plain_runtime_msg sample_key (lit "prompt")
             [] [])
      = Return (lit "Error: HTTP Error: raise_for_status. Status Code: 404, Response: not found"))
  /\ 400 <= status_code nested_error_response < 600
  /\ fst (_send_api_request net_nested_error plain_json_str
            plain_response_msg plain_runtime_msg sample_key (lit "prompt")
            [] [])
     = Raise recursion_error.
Proof.
  intros missing.
  assert (H1 : 400 <= status_code missing < 600) by (simpl; lia).
  assert (H2 : 400 <= status_code nested_error_response < 600)
    by (simpl; lia).
  split; [split; [exact H1|] | split; [exact H2|]].
  - rewrite (send_reports_http_error (fun _ _ => PostReturn missing)
               plain_json_str plain_response_msg plain_runtime_msg
               sample_key (lit "prompt") [] [] missing eq_refl eq_refl H1).
    reflexivity.
  - rewrite (send_reports_http_error net_nested_error plain_json_str
               plain_response_msg plain_runtime_msg sample_key (lit "prompt")
               [] [] nested_error_response eq_refl eq_refl H2).
    reflexivity.
Defined.

(** X6: when [requests.post] itself fails, the result tells a timeout from
    any other failure of the request: a timeout gives one fixed string,
    another failure a string with its message, and the two never
    coincide. Every other exception gives a string with the error
    prefix; for an [HTTPError], which the library raises from
    [raise_for_status] only, that is so unless [json()] raises past the
    handler, and then the call raises that exception. *)
Theorem send_reports_transport_failure
    (net : list event -> post_request -> post_result)
    (json_str : json -> str) (response_error_msg : str -> response -> str)
    (runtime_msg : str -> json -> str)
    (api_key : option str) (prompt_content context_info : str)
    (tr : list event) (e : exn) :
  key_missing api_key = false ->
  net (tr ++ [EvSend prompt_content context_info])
    (request_of (key_text api_key) prompt_content context_info)
  = PostRaise e ->
  match e with
  | Timeout _ =>
      reply net json_str response_error_msg runtime_msg api_key
        prompt_content context_info tr = timeout_reply
  | RequestException msg =>
      reply net json_str response_error_msg runtime_msg api_key
        prompt_content context_info tr
      = lit "Error: Network or Request Error: " ++ msg
      /\ lit "Error: Network or Request Error: " ++ msg <> timeout_reply
  | HTTPError _ r =>
      match handler_escape r with
      | Some e' =>
          fst (_send_api_request net json_str response_error_msg runtime_msg
                 api_key prompt_content context_info tr) = Raise e'
      | None =>
          is_error
            (reply net json_str response_error_msg runtime_msg api_key
               prompt_content context_info tr) = true
      end
  | _ =>
      is_error
        (reply net json_str response_error_msg runtime_msg api_key
           prompt_content context_info tr) = true
  end.
Proof.
  intros Hkey Hnet. unfold reply.
  rewrite (send_with_key net json_str response_error_msg runtime_msg
             api_key prompt_content context_info tr Hkey).
  cbv zeta. rewrite Hnet. unfold handled.
  destruct e as [msg | msg r | msg | msg | msg | msg | msg | msg | msg | msg];
    try reflexivity.
  - pose proof (on_http_error_spec json_str msg r
                  ((tr ++ [EvSend prompt_content context_info])
                     ++ [EvPost (request_of (key_text api_key) prompt_content
                                   context_info)])) as H.
    cbn [on_exception]. destruct (handler_escape r).
    + now rewrite H.
    + destruct H as (s & -> & He). exact He.
  - split; [reflexivity | discriminate].
Qed.

Lemma send_reports_transport_failure_witness :
  reply net_timeout plain_json_str plain_response_msg plain_runtime_msg
    sample_key (lit "prompt") [] [] = timeout_reply.
Proof.
  exact (send_reports_transport_failure net_timeout plain_json_str
           plain_response_msg plain_runtime_msg sample_key (lit "prompt")
           [] [] (Timeout (lit "timed out")) eq_refl eq_refl).
Defined.

(* ===================================================================== *)
(** ** Further properties of the orchestrator *)
(* ===================================================================== *)

Section MoreOrchestratorFacts.

Variable net : list event -> post_request -> post_result.
Variable json_str : json -> str.
Variable response_error_msg : str -> response -> str.
Variable runtime_msg : str -> json -> str.
Variable api_key : option str.
Variable custom_instruction : str.

#[local] Abbreviation send2 :=
  (_send_api_request net json_str response_error_msg runtime_msg api_key).
#[local] Abbreviation reply2 :=
  (reply net json_str response_error_msg runtime_msg api_key).
#[local] Abbreviation replies2 :=
  (chunk_replies net json_str response_error_msg runtime_msg api_key
     custom_instruction).
#[local] Abbreviation trace2 := (chunk_trace api_key custom_instruction).
#[local] Abbreviation summarize2 :=
  (summarize_text net json_str response_error_msg runtime_msg api_key).

Lemma summarize_blank (text : str) (tr : list event) :
  truthy (strip text) = false ->
  summarize2 text custom_instruction tr
  = (Return (lit "Error: No text provided to summarize."), tr).
Proof.
  intros Hb. unfold summarize_text. rewrite Hb.
  now rewrite orb_true_r.
Qed.

Lemma strip_truthy (text : str) :
  truthy (strip text) = true -> truthy text = true.
Proof. destruct text; [discriminate | reflexivity]. Qed.

Lemma summarize_single (text chunk : str) (tr : list event) :
  truthy (strip text) = true ->
  _split_text_into_chunks text = Some [chunk] ->
  summarize2 text custom_instruction tr
  = send2 (single_prompt custom_instruction chunk) [] tr.
Proof.
  intros Hnb Hsplit. unfold summarize_text.
  now rewrite Hnb, (strip_truthy text Hnb), Hsplit.
Qed.


(** The three ways a run goes. *)
Lemma summarize_cases (text : str) (tr : list event) :
  (truthy (strip text) = false
   /\ summarize2 text custom_instruction tr
      = (Return (lit "Error: No text provided to summarize."), tr))
  \/ (exists chunk,
        truthy (strip text) = true
        /\ _split_text_into_chunks text = Some [chunk]
        /\ summarize2 text custom_instruction tr
           = send2 (single_prompt custom_instruction chunk) [] tr)
  \/ (exists chunks,
        truthy (strip text) = true
        /\ _split_text_into_chunks text = Some chunks
        /\ (2 <= length chunks)%nat).
Proof.
  destruct (truthy (strip text)) eqn:Hnb.
  - right.
    destruct (split_cases text) as (chunks & pieces & Heq & Hcat & _ & Hnil).
    destruct chunks as [|c1 [|c2 rest]].
    + exfalso. specialize (Hnil eq_refl).
      rewrite <- Hcat, (strip_spaces _ (spaces_concat _ Hnil)) in Hnb.
      discriminate.
    + left. exists c1. split; [reflexivity|]. split; [exact Heq|].
      now apply summarize_single.
    + right. exists (c1 :: c2 :: rest).
      split; [reflexivity|]. split; [exact Heq | simpl; lia].
  - left. split; [reflexivity | now apply summarize_blank].
Qed.

(** A run over two chunks or more starts with the call for the first
    chunk, whether the calls return or not. *)
Lemma summarize_multi_first (text : str) (chunks : list str)
    (tr : list event) :
  _split_text_into_chunks text = Some chunks -> (2 <= length chunks)%nat ->
  exists p c evs,
    snd (summarize2 text custom_instruction tr) = tr ++ EvSend p c :: evs.
Proof.
  intros Hsplit Hn.
  rewrite (summarize_loop net json_str response_error_msg runtime_msg api_key
             custom_instruction text chunks tr Hsplit Hn).
  assert (Hloop : exists p c evs,
            snd (chunk_loop net json_str response_error_msg runtime_msg
                   api_key custom_instruction (length chunks) 0 chunks []
                   false tr)
            = tr ++ EvSend p c :: evs).
  { destruct chunks as [|c1 rest]; [simpl in Hn; lia|].
    cbn [chunk_loop]. unfold bind at 1.
    pose proof (send_events net json_str response_error_msg runtime_msg
                  api_key (chunk_prompt custom_instruction c1)
                  (chunk_context (0 + 1) (length (c1 :: rest))) tr) as Hev.
    destruct (_send_api_request _ _ _ _ _ _ _ tr) as [[s|e|] tr1];
      cbn [snd] in Hev; subst tr1; unfold call_events;
      [|cbn [snd]; eexists; eexists; eexists; reflexivity..].
    unfold bind at 1, emit. cbv beta iota.
    match goal with
    | |- context [chunk_loop _ _ _ _ _ _ ?n ?i rest ?a ?b ?t] =>
        destruct (chunk_loop_extends net json_str response_error_msg
                    runtime_msg api_key custom_instruction n i rest a b t)
          as (evs & ->)
    end.
    eexists. eexists. eexists. rewrite <- !app_assoc. cbn [app].
    reflexivity. }
  destruct Hloop as (p & c & evs & Hloop).
  destruct (chunk_loop _ _ _ _ _ _ _ 0 chunks [] false tr)
    as [[[sums he]|e|] tr'];
    cbn [snd] in Hloop; subst tr'; [|eauto..].
  destruct (negb _); [eauto|]. destruct (_ || _); [eauto|].
  rewrite (send_events net json_str response_error_msg runtime_msg api_key).
  exists p, c. eexists. rewrite <- app_assoc. cbn [app]. reflexivity.
Qed.

Lemma replies_missing_key (n i : nat) (chunks : list str) (tr : list event) :
  key_missing api_key = true -> chunks <> [] ->
  existsb is_error (replies2 n i chunks tr) = true.
Proof.
  intros Hkey Hne. destruct chunks as [|c rest]; [congruence|].
  cbn [chunk_replies existsb].
  now rewrite (reply_missing_key net json_str response_error_msg runtime_msg
                 api_key _ _ tr Hkey).
Qed.

(** The calls of the loop return when every call does. *)
Lemma calls_return_all (n i : nat) (chunks : list str) (tr : list event) :
  (forall p c tr',
     returns net json_str response_error_msg runtime_msg api_key p c tr'
     = true) ->
  chunk_calls_return net json_str response_error_msg runtime_msg api_key
    custom_instruction n i chunks tr = true.
Proof.
  intros Hall. revert i tr.
  induction chunks as [|chunk rest IH]; intros i tr; [reflexivity|].
  cbn [chunk_calls_return]. now rewrite Hall, IH.
Qed.

End MoreOrchestratorFacts.



(** X8: a request is made exactly when the text is not blank: for a blank
    text the result is the fixed message and the run has no event; for
    any other text the run starts with a call of [_send_api_request]. *)
Theorem summarize_requests_iff_not_blank
    (net : list event -> post_request -> post_result)
    (json_str : json -> str) (response_error_msg : str -> response -> str)
    (runtime_msg : str -> json -> str)
    (api_key : option str) (text custom_instruction : str)
    (tr : list event) :
  let run :=
    summarize_text net json_str response_error_msg runtime_msg api_key text
      custom_instruction tr in
  if truthy (strip text)
  then exists p c evs, snd run = tr ++ EvSend p c :: evs
  else run = (Return (lit "Error: No text provided to summarize."), tr).
Proof.
  intros run. unfold run.
  destruct (summarize_cases net json_str response_error_msg runtime_msg
              api_key custom_instruction text tr)
    as [[Hb Hrun] | [(chunk & Hnb & _ & Hrun)
                    | (chunks & Hnb & Hsplit & Hn)]].
  - now rewrite Hb.
  - rewrite Hnb, Hrun.
    rewrite (send_events net json_str response_error_msg runtime_msg api_key).
    unfold call_events. simpl. eauto.
  - rewrite Hnb.
    exact (summarize_multi_first net json_str response_error_msg runtime_msg
             api_key custom_instruction text chunks tr Hsplit Hn).
Qed.

(** X9: the single-request path: for a text that is not blank and
    within the budget the run is one call of [_send_api_request], with
    the empty context and a prompt made of the instruction and the whole
    text: it returns what that call returns, raises what it raises, and
    has its events. *)
Theorem summarize_single_chunk
    (net : list event -> post_request -> post_result)
    (json_str : json -> str) (response_error_msg : str -> response -> str)
    (runtime_msg : str -> json -> str)
    (api_key : option str) (text custom_instruction : str)
    (tr : list event) :
  truthy (strip text) = true -> len text <= MAX_CHARS_PER_CHUNK ->
  let run :=
    summarize_text net json_str response_error_msg runtime_msg api_key text
      custom_instruction tr in
  run
  = _send_api_request net json_str response_error_msg runtime_msg api_key
      (single_prompt custom_instruction text) [] tr
  /\ snd run
     = tr ++ call_events api_key (single_prompt custom_instruction text) []
  /\ single_prompt custom_instruction text
     = custom_instruction ++ [NL; NL]
         ++ lit "Please summarize the following text:" ++ [NL; NL] ++ text.
Proof.
  intros Hnb Hshort run.
  assert (Hrun : run
                 = _send_api_request net json_str response_error_msg
                     runtime_msg api_key
                     (single_prompt custom_instruction text) [] tr).
  { unfold run. apply summarize_single; [exact Hnb|].
    rewrite split_short by assumption.
    destruct text; [discriminate | reflexivity]. }
  split; [exact Hrun|]. split; [|reflexivity].
  rewrite Hrun. apply send_events.
Qed.

Lemma summarize_single_chunk_witness :
  truthy (strip (lit "Short text.")) = true
  /\ len (lit "Short text.") <= MAX_CHARS_PER_CHUNK
  /\ summarize_text (net_content (lit " A summary. ")) plain_json_str
       plain_response_msg plain_runtime_msg sample_key (lit "Short text.")
       sample_instruction []
     = (Return (lit "A summary."),
        call_events sample_key
          (single_prompt sample_instruction (lit "Short text.")) [])
  /\ fst (summarize_text net_nested_error plain_json_str
            plain_response_msg plain_runtime_msg sample_key
            (lit "Short text.") sample_instruction [])
     = Raise recursion_error.
Proof.
  assert (H1 : truthy (strip (lit "Short text.")) = true) by reflexivity.
  assert (H2 : len (lit "Short text.") <= MAX_CHARS_PER_CHUNK)
    by (vm_compute; discriminate).
  split; [exact H1|]. split; [exact H2|]. split.
  - destruct (summarize_single_chunk (net_content (lit " A summary. "))
                plain_json_str plain_response_msg plain_runtime_msg
                sample_key (lit "Short text.") sample_instruction [] H1 H2)
      as [H _].
    rewrite H. reflexivity.
  - destruct (summarize_single_chunk net_nested_error plain_json_str
                plain_response_msg plain_runtime_msg sample_key
                (lit "Short text.") sample_instruction [] H1 H2)
      as [H _].
    rewrite H. reflexivity.
Defined.

(** X10: without a key nothing is posted: whatever the text, the run posts no
    request, and the result starts with ["Error:"] or is the skip
    notice followed by the combined error markers. *)
Theorem summarize_without_key_posts_nothing
    (net : list event -> post_request -> post_result)
    (json_str : json -> str) (response_error_msg : str -> response -> str)
    (runtime_msg : str -> json -> str)
    (api_key : option str) (text custom_instruction : str)
    (tr : list event) :
  key_missing api_key = true ->
  exists result tr',
    summarize_text net json_str response_error_msg runtime_msg api_key text
      custom_instruction tr = (Return result, tr')
    /\ posts tr' = posts tr
    /\ (is_error result = true \/ startswith result skip_prefix = true).
Proof.
  intros Hkey.
  destruct (summarize_cases net json_str response_error_msg runtime_msg
              api_key custom_instruction text tr)
    as [[_ Hrun] | [(chunk & _ & _ & Hrun) | (chunks & _ & Hsplit & Hn)]].
  - eexists. eexists. split; [exact Hrun|]. split; [reflexivity | now left].
  - rewrite Hrun.
    rewrite (send_missing_key net json_str response_error_msg runtime_msg
               api_key _ _ tr Hkey).
    eexists. eexists. split; [reflexivity|]. split.
    + rewrite posts_app. unfold call_events. rewrite Hkey. simpl.
      now rewrite app_nil_r.
    + now left.
  - rewrite (summarize_multi net json_str response_error_msg runtime_msg
               api_key custom_instruction text chunks tr Hsplit Hn)
      by (apply calls_return_all; intros;
          now apply returns_missing_key).
    rewrite (replies_missing_key net json_str response_error_msg runtime_msg
               api_key custom_instruction _ _ chunks tr Hkey)
      by (destruct chunks; [simpl in Hn; lia | discriminate]).
    rewrite orb_true_r.
    eexists. eexists. split; [reflexivity|]. split.
    + rewrite posts_chunk_trace, Hkey. now rewrite app_nil_r.
    + right. apply startswith_app.
Qed.

Lemma summarize_without_key_posts_nothing_witness :
  key_missing (Some []) = true
  /\ exists result tr',
       summarize_text (net_content (lit "ok")) plain_json_str
         plain_response_msg plain_runtime_msg (Some []) two_chunk_text
         sample_instruction [] = (Return result, tr')
       /\ posts tr' = [].
Proof.
  split; [reflexivity|].
  destruct (summarize_without_key_posts_nothing (net_content (lit "ok"))
              plain_json_str plain_response_msg plain_runtime_msg (Some [])
              two_chunk_text sample_instruction [] eq_refl)
    as (result & tr' & Hrun & Hposts & _).
  exists result, tr'. split; [exact Hrun | exact Hposts].
Defined.

(* ===================================================================== *)
(** ** Properties of the extraction *)
(* ===================================================================== *)

Section ExtractionFacts.

Variable filename : str.

Lemma existsb_eqb_In (q : Z) (l : list Z) :
  existsb (Z.eqb q) l = true <-> In q l.
Proof.
  rewrite existsb_exists. split.
  - intros (x & Hx & Heq). apply Z.eqb_eq in Heq. now subst.
  - intros H. exists q. split; [exact H | apply Z.eqb_refl].
Qed.

Lemma readable_lookup (doc : list page) (n : nat) (p : page) :
  readable doc -> doc !! n = Some p ->
  (exists t, get_text p = Return t) /\ exists imgs, get_images p = Return imgs.
Proof.
  intros Hr Hp. unfold readable in Hr. rewrite Forall_lookup in Hr.
  exact (Hr n p Hp).
Qed.

Lemma text_loop_readable (doc : list page) (acc : list str) :
  readable doc -> text_loop doc acc = Return (acc ++ page_texts doc).
Proof.
  revert acc. induction doc as [|p rest IH]; intros acc Hr; simpl.
  - now rewrite app_nil_r.
  - inversion Hr as [|? ? [[t Ht] _] Hrest]; subst.
    rewrite Ht. simpl. rewrite IH by assumption.
    now rewrite <- app_assoc.
Qed.

Lemma extract_text_readable (doc : list page) :
  readable doc -> extract_text (Return doc) filename = Return (page_texts doc).
Proof.
  intros Hr. unfold extract_text. simpl.
  now rewrite text_loop_readable.
Qed.

Lemma ocr_at_page (doc : list page) (q : Z) (p : page) (imgs : list image) :
  0 <= q -> doc !! Z.to_nat q = Some p -> get_images p = Return imgs ->
  ocr_at doc q
  = if truthy (strip (image_loop imgs [])) then Some (image_loop imgs [])
    else None.
Proof.
  intros Hq Hp Himgs. unfold ocr_at, ocr_text.
  destruct (Z.leb_spec 0 q); [|lia]. now rewrite Hp, Himgs.
Qed.

(** The loop over the pages: a page number that is asked for sets the
    entry of its page when the page has OCR text, and leaves it
    otherwise. *)
Lemma page_loop_lookup (doc : list page) (ps : list Z) (d : gmap Z str) :
  readable doc ->
  (forall p, In p ps -> 0 <= p < Z.of_nat (length doc)) ->
  exists d',
    page_loop doc ps d = Return d'
    /\ forall q,
         d' !! q
         = match (if existsb (Z.eqb q) ps then ocr_at doc q else None) with
           | Some t => Some t
           | None => d !! q
           end.
Proof.
  intros Hr. revert d. induction ps as [|n rest IH]; intros d Hin.
  - exists d. split; [reflexivity|]. intros q. reflexivity.
  - assert (Hn : 0 <= n < Z.of_nat (length doc)) by (apply Hin; now left).
    assert (Hrest : forall p, In p rest -> 0 <= p < Z.of_nat (length doc))
      by (intros p Hp; apply Hin; now right).
    destruct (lookup_lt_is_Some_2 doc (Z.to_nat n)) as [pg Hpg]; [lia|].
    destruct (readable_lookup doc _ pg Hr Hpg) as [_ [imgs Himgs]].
    pose proof (ocr_at_page doc n pg imgs (proj1 Hn) Hpg Himgs) as Hocr.
    cbn [page_loop]. unfold load_page. rewrite Hpg. cbn [rbind].
    rewrite Himgs. cbn [rbind].
    set (t := image_loop imgs []) in *.
    set (d1 := if truthy (strip t) then <[n:=t]> d else d).
    assert (Hstep : match imgs with
                    | [] => page_loop doc rest d
                    | _ :: _ => page_loop doc rest d1
                    end = page_loop doc rest d1).
    { destruct imgs; [|reflexivity]. reflexivity. }
    rewrite Hstep. destruct (IH d1 Hrest) as (d' & Hrun & Hlook).
    exists d'. split; [exact Hrun|]. intros q. rewrite Hlook.
    cbn [existsb]. destruct (Z.eqb_spec q n) as [->|Hne]; cbn [orb].
    + rewrite Hocr. destruct (existsb (Z.eqb n) rest).
      * unfold d1.
        destruct (truthy (strip t)); [reflexivity|]. reflexivity.
      * unfold d1. destruct (truthy (strip t)); [|reflexivity].
        apply lookup_insert_eq.
    + destruct (existsb (Z.eqb q) rest).
      * destruct (ocr_at doc q); [reflexivity|].
        unfold d1. destruct (truthy (strip t)); [|reflexivity].
        now apply lookup_insert_ne.
      * unfold d1. destruct (truthy (strip t)); [|reflexivity].
        now apply lookup_insert_ne.
Qed.

Lemma ocr_at_outside (doc : list page) (q : Z) :
  ~ 0 <= q < Z.of_nat (length doc) -> ocr_at doc q = None.
Proof.
  intros Hq. unfold ocr_at. destruct (Z.leb_spec 0 q); [|reflexivity].
  rewrite (lookup_ge_None_2 doc (Z.to_nat q)); [reflexivity | lia].
Qed.

(** What [extract_image_text] returns for a readable document. *)
Lemma extract_image_text_lookup (doc : list page)
    (page_numbers : option (list Z)) :
  readable doc ->
  exists d,
    extract_image_text (Return doc) filename page_numbers = Return d
    /\ forall q,
         d !! q = if selected page_numbers q then ocr_at doc q else None.
Proof.
  intros Hr. unfold extract_image_text. cbn [rbind].
  set (ps := pages_to_process page_numbers (length doc)).
  assert (Hin : forall p, In p ps -> 0 <= p < Z.of_nat (length doc)).
  { intros p Hp. unfold ps, pages_to_process in Hp.
    destruct page_numbers as [l|].
    - apply List.filter_In in Hp as [_ Hp].
      apply andb_prop in Hp as [H1 H2].
      apply Z.leb_le in H1. apply Z.ltb_lt in H2. lia.
    - apply List.in_map_iff in Hp as (k & <- & Hk).
      apply in_seq in Hk. lia. }
  assert (Hsel : forall q,
            (if existsb (Z.eqb q) ps then ocr_at doc q else None)
            = if selected page_numbers q then ocr_at doc q else None).
  { intros q.
    destruct (Z.le_gt_cases 0 q) as [H0|H0];
      [destruct (Z.lt_ge_cases q (Z.of_nat (length doc))) as [H1|H1]|].
    - assert (E : existsb (Z.eqb q) ps = selected page_numbers q).
      { unfold ps, pages_to_process, selected.
        destruct page_numbers as [l|].
        - apply eq_true_iff_eq. rewrite !existsb_eqb_In, List.filter_In.
          split; [tauto|]. intros Hq. split; [exact Hq|].
          apply andb_true_intro. split; [apply Z.leb_le | apply Z.ltb_lt];
            lia.
        - apply existsb_eqb_In, List.in_map_iff.
          exists (Z.to_nat q). split; [lia|]. apply in_seq. lia. }
      now rewrite E.
    - rewrite (ocr_at_outside doc q) by lia. now destruct (_ : bool), (_ : bool).
    - rewrite (ocr_at_outside doc q) by lia. now destruct (_ : bool), (_ : bool). }
  destruct (page_loop_lookup doc ps ∅ Hr Hin) as (d & Hrun & Hlook).
  exists d. split.
  - destruct ps as [|p ps'] eqn:Hps; [|exact (f_equal _ Hrun)].
    simpl in Hrun. injection Hrun as <-. reflexivity.
  - intros q. rewrite Hlook, Hsel, lookup_empty.
    now destruct (if selected page_numbers q then ocr_at doc q else None).
Qed.

End ExtractionFacts.

Section ExtractionResults.

Variable filename : str.


Lemma text_loop_texts (doc : list page) (acc : list str) :
  texts_readable doc -> text_loop doc acc = Return (acc ++ page_texts doc).
Proof.
  revert acc. induction doc as [|p rest IH]; intros acc Hr; simpl.
  - now rewrite app_nil_r.
  - inversion Hr as [|? ? [t Ht] Hrest]; subst.
    rewrite Ht. simpl. rewrite IH by assumption.
    now rewrite <- app_assoc.
Qed.

Lemma merged_head (pages : list str) (d : gmap Z str) (p : str) :
  exists post,
    PDFProcessor.merge_text_and_images (p :: pages) d
    = lit "--- Page 1 ---" ++ post.
Proof.
  unfold PDFProcessor.merge_text_and_images.
  rewrite merge_loop_cons, merge_loop_acc.
  destruct (page_block_head d 0 p) as (r & Hr). rewrite Hr.
  change (str_of_nat (0 + 1)) with (lit "1").
  set (tail := PDFProcessor.merge_loop d 1 pages []).
  assert (Hraw : ([] ++ lit "--- Page " ++ lit "1" ++ lit " --" ++ [45%N] ++ r)
                 ++ tail
                 = (lit "--- Page 1 --" ++ [45%N]) ++ r ++ tail).
  { rewrite <- !app_assoc. reflexivity. }
  rewrite Hraw. unfold strip.
  rewrite lstrip_clean by reflexivity.
  destruct (rstrip_app_keep (lit "--- Page 1 --") 45%N (r ++ tail) eq_refl)
    as (post & ->).
  exists post. reflexivity.
Qed.

Lemma page_loop_fails (doc : list page) (ps : list Z) (j : nat) (p : page)
    (e : exn) (d : gmap Z str) :
  In (Z.of_nat j) ps -> doc !! j = Some p -> get_images p = Raise e ->
  forall d', page_loop doc ps d <> Return d'.
Proof.
  intros Hin Hp He. revert d. induction ps as [|n rest IH]; intros d d';
    [contradiction|].
  cbn [page_loop]. unfold load_page.
  destruct (doc !! Z.to_nat n) as [pn|] eqn:Hpn; cbn [rbind]; [|discriminate].
  destruct (get_images pn) as [imgs | e0 |] eqn:Himgs; cbn [rbind];
    [|discriminate..].
  destruct Hin as [-> | Hin].
  - rewrite Nat2Z.id in Hpn. congruence.
  - destruct imgs; now apply IH.
Qed.

End ExtractionResults.

(** X11: the merged text of a document without pages is empty; the merged
    text of any other document starts with the marker of page 1, so it
    is not blank, whatever the pages contain; and it has no white space
    at either end. *)
Theorem merged_text_shape (pdf_text_pages : list str)
    (image_text_dict : gmap Z str) :
  let merged :=
    PDFProcessor.merge_text_and_images pdf_text_pages image_text_dict in
  strip merged = merged
  /\ match pdf_text_pages with
     | [] => merged = []
     | _ :: _ =>
         (exists post, merged = lit "--- Page 1 ---" ++ post)
         /\ truthy (strip merged) = true
     end.
Proof.
  intros merged.
  assert (Hs : strip merged = merged) by apply strip_idem.
  split; [exact Hs|].
  destruct pdf_text_pages as [|p rest]; [reflexivity|].
  destruct (merged_head rest image_text_dict p) as (post & Hpost).
  split; [eauto|]. rewrite Hs. unfold merged. now rewrite Hpost.
Qed.





(** X14: [None] asks for every page: on a readable document it gives what
    the list of all page numbers gives. *)
Theorem extract_image_text_all (filename : str) (doc : list page) :
  readable doc ->
  extract_image_text (Return doc) filename None
  = extract_image_text (Return doc) filename
      (Some (List.map Z.of_nat (seq 0 (length doc)))).
Proof.
  intros Hr.
  destruct (extract_image_text_lookup filename doc None Hr)
    as (d1 & -> & Hd1).
  destruct (extract_image_text_lookup filename doc
              (Some (List.map Z.of_nat (seq 0 (length doc)))) Hr)
    as (d2 & -> & Hd2).
  f_equal. apply map_eq. intros q. rewrite Hd1, Hd2.
  destruct (Z.le_gt_cases 0 q) as [H0|H0];
    [destruct (Z.lt_ge_cases q (Z.of_nat (length doc))) as [H1|H1]|];
    try (rewrite ocr_at_outside by lia;
         now destruct (selected _ q), (selected _ q)).
  replace (selected (Some (List.map Z.of_nat (seq 0 (length doc)))) q)
    with true; [reflexivity|].
  symmetry. unfold selected. apply existsb_eqb_In, List.in_map_iff.
  exists (Z.to_nat q). split; [lia|]. apply in_seq. lia.
Qed.

Lemma extract_image_text_all_witness :
  readable sample_doc
  /\ extract_image_text (Return sample_doc) (lit "a.pdf") None
     = extract_image_text (Return sample_doc) (lit "a.pdf") (Some [0; 1]).
Proof.
  assert (Hr : readable sample_doc).
  { repeat constructor; eexists; reflexivity. }
  split; [exact Hr|].
  exact (extract_image_text_all (lit "a.pdf") sample_doc Hr).
Defined.

(** X15: with the empty list of OCR pages the images are never read:
    [process] returns the merged page texts, without OCR text, also for
    a document with a page whose images cannot be listed, on which
    [process] with OCR of all pages does not return. *)
Theorem process_without_ocr (filename : str) (doc : list page) :
  texts_readable doc ->
  process (Return doc) filename (Some [])
  = Return (PDFProcessor.merge_text_and_images (page_texts doc) ∅)
  /\ (forall p e, In p doc -> get_images p = Raise e ->
      forall text, process (Return doc) filename None <> Return text).
Proof.
  intros Hr. unfold process, extract_text. cbn [rbind reraise].
  rewrite (text_loop_texts doc [] Hr). cbn [rbind reraise app].
  split; [reflexivity|].
  intros p e Hp He text. unfold extract_image_text. cbn [rbind].
  apply list_elem_of_In, list_elem_of_lookup in Hp as [j Hj].
  apply lookup_lt_Some in Hj as Hlt.
  assert (Hin : In (Z.of_nat j)
                  (pages_to_process None (length doc))).
  { apply List.in_map, in_seq. lia. }
  pose proof (page_loop_fails doc _ j p e ∅ Hin Hj He) as Hfail.
  destruct (pages_to_process None (length doc)) as [|n ps]; [contradiction|].
  destruct (page_loop doc (n :: ps) ∅) as [d | e0 |] eqn:Hrun;
    cbn [reraise rbind]; [|discriminate..].
  exfalso. exact (Hfail d eq_refl).
Qed.

Lemma process_without_ocr_witness :
  let doc := [damaged_page (lit "text of the page")] in
  texts_readable doc
  /\ process (Return doc) (lit "a.pdf") (Some [])
     = Return (lit "--- Page 1 ---" ++ [NL] ++ lit "text of the page")
  /\ forall text, process (Return doc) (lit "a.pdf") None <> Return text.
Proof.
  intros doc.
  assert (Hr : texts_readable doc)
    by (repeat constructor; eexists; reflexivity).
  destruct (process_without_ocr (lit "a.pdf") doc Hr) as [H1 H2].
  split; [exact Hr|]. split.
  - rewrite H1. reflexivity.
  - apply (H2 (damaged_page (lit "text of the page"))
             (ValueError (lit "bad image list"))); [now left | reflexivity].
Defined.



(* ===================================================================== *)
(** ** The list of OCR pages *)
(* ===================================================================== *)

Section PageStringFacts.

Lemma split_nonempty (sep : N) (s : str) :
  exists p rest, split sep s = p :: rest.
Proof.
  destruct s as [|c s]; simpl; [eauto|].
  destruct (c =? sep)%N; [eauto|]. destruct (split sep s); eauto.
Qed.

Lemma split_app (sep : N) (a b : str) :
  split sep (a ++ sep :: b) = split sep a ++ split sep b.
Proof.
  induction a as [|c a IH]; simpl.
  - now rewrite N.eqb_refl.
  - destruct (c =? sep)%N; [now rewrite IH|].
    rewrite IH. now destruct (split_nonempty sep a) as (p & rest & ->).
Qed.

Lemma split_free (sep : N) (s : str) : ~ In sep s -> split sep s = [s].
Proof.
  induction s as [|c s IH]; simpl; intros H; [reflexivity|].
  destruct (N.eqb_spec c sep) as [->|_]; [exfalso; apply H; now left|].
  rewrite IH; [reflexivity|]. intros Hin. apply H. now right.
Qed.

Lemma length_split (sep : N) (s : str) :
  length (split sep s) = S (count_occ N.eq_dec s sep).
Proof.
  induction s as [|c s IH]; [reflexivity|]. cbn [split count_occ].
  destruct (N.eqb_spec c sep) as [->|Hne].
  - destruct (N.eq_dec sep sep); [|congruence]. simpl. now rewrite IH.
  - destruct (N.eq_dec c sep); [congruence|].
    destruct (split_nonempty sep s) as (p & rest & E).
    rewrite E in *. exact IH.
Qed.

Lemma spaces_free (s : str) : forallb isspace s = true -> ~ In COMMA s.
Proof.
  intros H Hin. rewrite forallb_forall in H. now apply H in Hin.
Qed.

Lemma strip_id (s : str) :
  forallb (fun c => negb (isspace c)) s = true -> strip s = s.
Proof.
  intros H. destruct (strip_split s) as (w1 & w2 & Hs & H1 & H2).
  rewrite Hs in H. rewrite !forallb_app in H.
  apply andb_prop in H as [Hw1 H]. apply andb_prop in H as [_ Hw2].
  rewrite (spaces_and_not w1 H1 Hw1), (spaces_and_not w2 H2 Hw2) in Hs.
  simpl in Hs. now rewrite app_nil_r in Hs.
Qed.

Lemma occurs_hyphen (s : str) :
  occurs (lit "-") s = existsb (N.eqb HYPHEN) s.
Proof.
  change (lit "-") with [HYPHEN].
  induction s as [|c s IH]; [reflexivity|].
  cbn [occurs startswith existsb]. now rewrite IH, andb_true_r.
Qed.

(** *** The sorted list of a set *)

Lemma elem_of_sorted (pages : gset Z) (q : Z) : q ∈ sorted pages <-> q ∈ pages.
Proof.
  unfold sorted. rewrite merge_sort_Permutation. apply elem_of_elements.
Qed.

Lemma In_sorted (pages : gset Z) (q : Z) : In q (sorted pages) <-> q ∈ pages.
Proof. rewrite <- elem_of_sorted. symmetry. apply list_elem_of_In. Qed.

Lemma sorted_empty : sorted ∅ = [].
Proof. unfold sorted. now rewrite elements_empty. Qed.

Lemma list_to_set_sorted (pages : gset Z) : list_to_set (sorted pages) = pages.
Proof.
  apply set_eq. intros q. now rewrite elem_of_list_to_set, elem_of_sorted.
Qed.

Lemma strict_of_NoDup (l : list Z) : Sorted Z.le l -> NoDup l -> Sorted Z.lt l.
Proof.
  induction 1 as [|x l Hl IH Hx]; intros Hnd; [constructor|].
  apply NoDup_cons in Hnd as [Hnotin Hnd]. constructor; [now apply IH|].
  destruct Hx as [|y l Hxy]; constructor.
  assert (x <> y) by (intros ->; apply Hnotin; now left). lia.
Qed.

Lemma sorted_increasing (pages : gset Z) : increasing (sorted pages).
Proof.
  apply strict_of_NoDup.
  - apply (Sorted_merge_sort Z.le).
  - unfold sorted. rewrite merge_sort_Permutation. apply NoDup_elements.
Qed.

End PageStringFacts.

Section PageListFacts.

Variable py_int : str -> str + Z.

Lemma try_body_union (part : str) (pages : gset Z) :
  try_body py_int part pages =
  rbind (try_body py_int part ∅) (fun new => Return (pages ∪ new)).
Proof.
  unfold try_body.
  destruct (occurs (lit "-") part).
  - destruct (split HYPHEN part) as [|first [|second [|? ?]]]; try reflexivity.
    destruct (to_int py_int first) as [start| |]; try reflexivity.
    destruct (to_int py_int second) as [end_| |]; try reflexivity.
    cbn [rbind].
    destruct ((start <? 0) || (end_ <? 0)); [reflexivity|].
    destruct (start >? end_); [reflexivity|].
    cbn [rbind]. now rewrite (left_id_L ∅ (∪)).
  - destruct (to_int py_int part) as [page_num| |]; try reflexivity.
    cbn [rbind]. destruct (page_num <? 0); [reflexivity|].
    cbn [rbind]. now rewrite (left_id_L ∅ (∪)).
Qed.

Lemma except_union (part : str) (pages : gset Z) :
  except_value_error part (try_body py_int part pages) =
  rbind (except_value_error part (try_body py_int part ∅))
    (fun new => Return (pages ∪ new)).
Proof.
  rewrite try_body_union.
  destruct (try_body py_int part ∅) as [new|e|]; try reflexivity.
  now destruct e.
Qed.

Lemma parts_loop_union (parts : list str) (pages : gset Z) :
  parts_loop py_int parts pages =
  rbind (parts_loop py_int parts ∅) (fun new => Return (pages ∪ new)).
Proof.
  revert pages. induction parts as [|part rest IH]; intros pages.
  - cbn [parts_loop rbind]. now rewrite (right_id_L ∅ (∪)).
  - cbn [parts_loop]. destruct (negb (truthy (strip part))); [apply IH|].
    rewrite except_union.
    destruct (except_value_error (strip part)
                (try_body py_int (strip part) ∅)) as [new|e|];
      try reflexivity.
    cbn [rbind]. rewrite IH, (IH new).
    destruct (parts_loop py_int rest ∅) as [more|e|]; try reflexivity.
    cbn [rbind]. now rewrite (assoc_L (∪)).
Qed.

Lemma parts_loop_app (xs ys : list str) (pages : gset Z) :
  parts_loop py_int (xs ++ ys) pages =
  rbind (parts_loop py_int xs pages) (parts_loop py_int ys).
Proof.
  revert pages. induction xs as [|part rest IH]; intros pages;
    [reflexivity|].
  cbn [app parts_loop]. destruct (negb (truthy (strip part))); [apply IH|].
  destruct (except_value_error (strip part)
              (try_body py_int (strip part) pages)) as [new|e|];
    try reflexivity.
  cbn [rbind]. apply IH.
Qed.

(** The first test of [parse_ocr_pages] changes nothing: the loop gives
    the empty list for a blank string. *)
Lemma parse_loop (pages_str : str) :
  parse_ocr_pages py_int pages_str =
  rbind (parts_loop py_int (split COMMA pages_str) ∅)
    (fun pages => Return (sorted pages)).
Proof.
  unfold parse_ocr_pages.
  destruct pages_str as [|c s]; [now rewrite <- sorted_empty|].
  cbn [truthy negb orb].
  destruct (strip (c :: s)) as [|c' s'] eqn:E; [|reflexivity].
  cbn [truthy negb].
  rewrite split_free by (apply spaces_free; now apply strip_nil_spaces).
  cbn [parts_loop]. rewrite E. cbn [truthy negb rbind].
  now rewrite sorted_empty.
Qed.

(** What the body adds for a part on which it returns: pages that are
    not negative. *)
Lemma try_body_nonneg (part : str) (new : gset Z) (q : Z) :
  try_body py_int part ∅ = Return new -> q ∈ new -> 0 <= q.
Proof.
  unfold try_body. destruct (occurs (lit "-") part).
  - destruct (split HYPHEN part) as [|first [|second [|? ?]]];
      try discriminate.
    destruct (to_int py_int first) as [start| |]; try discriminate.
    destruct (to_int py_int second) as [end_| |]; try discriminate.
    cbn [rbind].
    destruct (start <? 0) eqn:E1; [discriminate|].
    destruct (end_ <? 0); [discriminate|]. cbn [orb].
    destruct (start >? end_); [discriminate|].
    intros [= <-]. unfold range. rewrite elem_of_union, elem_of_list_to_set,
      elem_of_seqZ. intros [H|H]; [now apply elem_of_empty in H | lia].
  - destruct (to_int py_int part) as [page_num| |]; try discriminate.
    cbn [rbind]. destruct (page_num <? 0) eqn:E; [discriminate|].
    intros [= <-]. rewrite elem_of_union, elem_of_singleton.
    intros [H| ->]; [now apply elem_of_empty in H | lia].
Qed.

Lemma parts_loop_nonneg (parts : list str) (new : gset Z) (q : Z) :
  parts_loop py_int parts ∅ = Return new -> q ∈ new -> 0 <= q.
Proof.
  revert new. induction parts as [|part rest IH]; intros new.
  - intros [= <-] H. now apply elem_of_empty in H.
  - cbn [parts_loop]. destruct (negb (truthy (strip part))); [apply IH|].
    destruct (try_body py_int (strip part) ∅) as [first|e|] eqn:E;
      [|destruct e; discriminate|discriminate].
    cbn [except_value_error rbind]. rewrite parts_loop_union.
    destruct (parts_loop py_int rest ∅) as [more|e|]; try discriminate.
    cbn [rbind]. intros [= <-]. rewrite elem_of_union. intros [H|H].
    + exact (try_body_nonneg _ _ _ E H).
    + exact (IH _ eq_refl H).
Qed.

(** The exception of a part. *)
Lemma except_raises {A} (part : str) (body : pyres A) (e : exn) :
  (forall e', body = Raise e' -> exists msg, e' = ValueError msg) ->
  except_value_error part body = Raise e ->
  exists detail,
    occurs (lit "invalid literal") detail = false
    /\ e = ValueError (format_error part detail).
Proof.
  intros Hval. destruct body as [a|e'|]; try discriminate.
  destruct (Hval e' eq_refl) as (msg & ->). cbn [except_value_error].
  intros [= <-].
  destruct (occurs (lit "invalid literal") msg) eqn:E.
  - exists (lit "contains non-numeric characters"). now split.
  - exists msg. now split.
Qed.

Lemma try_body_raises (part : str) (pages : gset Z) (e : exn) :
  try_body py_int part pages = Raise e -> exists msg, e = ValueError msg.
Proof.
  unfold try_body, to_int. destruct (occurs (lit "-") part).
  - destruct (split HYPHEN part) as [|first [|second [|? ?]]];
      try (intros [= <-]; eauto).
    destruct (py_int first) as [m1|start]; [intros [= <-]; eauto|].
    destruct (py_int second) as [m2|end_]; [intros [= <-]; eauto|].
    cbn [rbind].
    destruct ((start <? 0) || (end_ <? 0)); [intros [= <-]; eauto|].
    destruct (start >? end_); [intros [= <-]; eauto|discriminate].
  - destruct (py_int part) as [m|page_num]; [intros [= <-]; eauto|].
    cbn [rbind]. destruct (page_num <? 0); [intros [= <-]; eauto|discriminate].
Qed.

Lemma parts_loop_raises (parts : list str) (pages : gset Z) (e : exn) :
  parts_loop py_int parts pages = Raise e ->
  exists part detail,
    In part (List.map strip parts) /\ part <> []
    /\ occurs (lit "invalid literal") detail = false
    /\ e = ValueError (format_error part detail).
Proof.
  revert pages. induction parts as [|part rest IH]; intros pages;
    [discriminate|].
  cbn [parts_loop List.map].
  destruct (strip part) as [|c s] eqn:E.
  - cbn [truthy negb]. intros H.
    destruct (IH _ H) as (p & d & Hin & Hrest). exists p, d.
    split; [now right | exact Hrest].
  - cbn [truthy negb].
    destruct (except_value_error (c :: s) (try_body py_int (c :: s) pages))
      as [new|e'|] eqn:Ex; cbn [rbind].
    + intros H. destruct (IH _ H) as (p & d & Hin & Hrest). exists p, d.
      split; [now right | exact Hrest].
    + intros [= <-].
      destruct (except_raises _ _ _ (try_body_raises _ pages) Ex)
        as (d & Hd & ->).
      exists (c :: s), d. repeat split; [now left | discriminate | exact Hd].
    + discriminate.
Qed.

End PageListFacts.

Section RenderFacts.

Lemma digits_of_uint_digits (d : Decimal.uint) :
  Forall (fun c => (48 <= c <= 57)%N) (digits_of_uint d).
Proof. induction d; simpl; constructor; try lia; assumption. Qed.

Lemma str_of_nat_digits (n : nat) :
  Forall (fun c => (48 <= c <= 57)%N) (str_of_nat n).
Proof.
  unfold str_of_nat, str_of_int. destruct (Z.of_nat n) eqn:E; [| |lia].
  - repeat constructor; vm_compute; discriminate.
  - apply digits_of_uint_digits.
Qed.

Lemma str_of_nat_nonempty (n : nat) : str_of_nat n <> [].
Proof.
  unfold str_of_nat, str_of_int. destruct (Z.of_nat n) eqn:E; [| |lia].
  - discriminate.
  - intros H. apply (DecimalPos.Unsigned.to_uint_nonnil p).
    now destruct (Pos.to_uint p).
Qed.

Lemma digits_free (sep : N) (s : str) :
  Forall (fun c => (48 <= c <= 57)%N) s -> (sep < 48 \/ 57 < sep)%N ->
  ~ In sep s.
Proof.
  intros H Hsep Hin. rewrite List.Forall_forall in H.
  apply H in Hin. lia.
Qed.

Lemma no_space_char (c : N) : (33 <= c <= 57)%N -> negb (isspace c) = true.
Proof.
  intros H. apply negb_true_iff. unfold isspace.
  rewrite !orb_false_iff, !andb_false_iff, !N.leb_gt, !N.eqb_neq. lia.
Qed.

Lemma existsb_free (sep : N) (s : str) :
  ~ In sep s -> existsb (N.eqb sep) s = false.
Proof.
  intros H. apply not_true_is_false. intros E.
  apply existsb_exists in E as (c & Hc & Heq).
  apply N.eqb_eq in Heq. now subst c.
Qed.

Lemma render_chars (it : item) :
  Forall (fun c => (33 <= c <= 57)%N /\ c <> COMMA) (render it).
Proof.
  assert (Hd : forall n,
    Forall (fun c => (33 <= c <= 57)%N /\ c <> COMMA) (str_of_nat n)).
  { intros n. eapply List.Forall_impl; [|apply str_of_nat_digits].
    unfold COMMA. simpl. intros c Hc. lia. }
  destruct it as [n|a b]; cbn [render]; [apply Hd|].
  apply Forall_app. split; [apply Hd|].
  change (lit "-") with [HYPHEN]. constructor; [|apply Hd].
  unfold HYPHEN, COMMA. lia.
Qed.

Lemma strip_render (it : item) : strip (render it) = render it.
Proof.
  apply strip_id, forallb_forall. intros c Hc.
  pose proof (render_chars it) as H. rewrite List.Forall_forall in H.
  apply no_space_char. now apply H.
Qed.

Lemma render_free (it : item) : ~ In COMMA (render it).
Proof.
  intros Hin. pose proof (render_chars it) as H.
  rewrite List.Forall_forall in H. now apply H in Hin.
Qed.

Lemma render_nonempty (it : item) : render it <> [].
Proof.
  destruct it as [n|a b]; cbn [render]; [apply str_of_nat_nonempty|].
  intros H. apply app_eq_nil in H as [H _].
  exact (str_of_nat_nonempty a H).
Qed.

Lemma split_join (parts : list str) :
  parts <> [] -> Forall (fun p => ~ In COMMA p) parts ->
  split COMMA (join [COMMA] parts) = parts.
Proof.
  induction parts as [|p rest IH]; [congruence|]. intros _ Hall.
  apply Forall_cons in Hall as [Hp Hrest].
  destruct rest as [|q rest]; [now apply split_free|].
  change (join [COMMA] (p :: q :: rest))
    with (p ++ COMMA :: join [COMMA] (q :: rest)).
  rewrite split_app, split_free, IH by (assumption || discriminate).
  reflexivity.
Qed.

Lemma split_range (a b : nat) :
  split HYPHEN (render (Range a b)) = [str_of_nat a; str_of_nat b].
Proof.
  cbn [render]. change (lit "-") with [HYPHEN].
  change ([HYPHEN] ++ str_of_nat b) with (HYPHEN :: str_of_nat b).
  rewrite split_app, !split_free; [reflexivity| |];
    (apply digits_free; [apply str_of_nat_digits | unfold HYPHEN; lia]).
Qed.

Lemma occurs_range (a b : nat) : occurs (lit "-") (render (Range a b)) = true.
Proof.
  rewrite occurs_hyphen. cbn [render]. change (lit "-") with [HYPHEN].
  rewrite existsb_app. cbn [app existsb]. rewrite N.eqb_refl.
  now rewrite orb_true_r.
Qed.

Lemma occurs_single (n : nat) : occurs (lit "-") (str_of_nat n) = false.
Proof.
  rewrite occurs_hyphen. apply existsb_free, digits_free;
    [apply str_of_nat_digits | unfold HYPHEN; lia].
Qed.

(** A string of digits in front does not decide whether a string that
    starts with a letter occurs. *)
Lemma occurs_after_digits (c : N) (sub d rest : str) :
  Forall (fun c => (48 <= c <= 57)%N) d -> (57 < c)%N ->
  occurs (c :: sub) (d ++ rest) = occurs (c :: sub) rest.
Proof.
  intros Hd Hc. induction Hd as [|x d Hx _ IH]; [reflexivity|].
  cbn [app occurs startswith]. rewrite IH.
  destruct (N.eqb_spec c x) as [->|_]; [lia | reflexivity].
Qed.

Variable py_int : str -> str + Z.

Lemma try_body_render (it : item) (pages : gset Z) :
  well_read py_int it ->
  exists new,
    try_body py_int (render it) pages = Return (pages ∪ new)
    /\ forall q, q ∈ new <-> names it q.
Proof.
  destruct it as [n|a b]; cbn [well_read names]; unfold try_body.
  - intros Hn. cbn [render]. rewrite occurs_single. unfold to_int.
    rewrite Hn. cbn [rbind].
    destruct (Z.ltb_spec (Z.of_nat n) 0) as [?|_]; [lia|].
    eexists. split; [reflexivity|]. intros q. apply elem_of_singleton.
  - intros (Ha & Hb & Hab). rewrite occurs_range, split_range.
    unfold to_int. rewrite Ha, Hb. cbn [rbind].
    destruct (Z.ltb_spec (Z.of_nat a) 0) as [?|_]; [lia|].
    destruct (Z.ltb_spec (Z.of_nat b) 0) as [?|_]; [lia|]. cbn [orb].
    destruct (Z.gtb_spec (Z.of_nat a) (Z.of_nat b)) as [?|_]; [lia|].
    eexists. split; [reflexivity|]. intros q. unfold range.
    rewrite elem_of_list_to_set, elem_of_seqZ. lia.
Qed.

Lemma parts_loop_render (items : list item) (pages : gset Z) :
  Forall (well_read py_int) items ->
  exists new,
    parts_loop py_int (List.map render items) pages = Return (pages ∪ new)
    /\ forall q, q ∈ new <-> exists it, In it items /\ names it q.
Proof.
  intros Hall. revert pages.
  induction Hall as [|it items Hit _ IH]; intros pages.
  - exists ∅. split; [cbn; now rewrite (right_id_L ∅ (∪))|].
    intros q. split; [intros H; now apply elem_of_empty in H|].
    now intros (it & [] & _).
  - cbn [List.map parts_loop]. rewrite strip_render.
    destruct (render it) as [|c s] eqn:E; [now apply render_nonempty in E|].
    cbn [truthy negb]. rewrite <- E.
    destruct (try_body_render it pages Hit) as (new & -> & Hnew).
    cbn [except_value_error rbind].
    destruct (IH (pages ∪ new)) as (more & -> & Hmore).
    exists (new ∪ more). split; [now rewrite (assoc_L (∪))|].
    intros q. rewrite elem_of_union, Hnew, Hmore. split.
    + intros [H|(it' & Hin & H)]; [exists it | exists it'];
        (split; [|assumption]); [now left | now right].
    + intros (it' & [<-|Hin] & H); [now left | right; eauto].
Qed.

End RenderFacts.

(* ===================================================================== *)
(** ** Properties of parse_ocr_pages *)
(* ===================================================================== *)

(** X17: whatever string it is given and whatever
    [int] makes of the parts, a list that [parse_ocr_pages] returns is in
    strictly increasing order, so that no page is in it twice, and none
    of its pages is negative. *)
Theorem parse_ocr_pages_sorted (py_int : str -> str + Z)
    (pages_str : str) (l : list Z) :
  parse_ocr_pages py_int pages_str = Return l ->
  increasing l /\ Forall (fun q => 0 <= q) l.
Proof.
  rewrite parse_loop.
  destruct (parts_loop py_int (split COMMA pages_str) ∅) as [pages|e|] eqn:E;
    try discriminate.
  cbn [rbind]. intros [= <-]. split; [apply sorted_increasing|].
  apply List.Forall_forall. intros q Hq. apply In_sorted in Hq.
  exact (parts_loop_nonneg py_int _ _ _ E Hq).
Qed.

Lemma parse_ocr_pages_sorted_witness :
  increasing [0; 1; 5; 6; 7; 8]
  /\ Forall (fun q => 0 <= q) [0; 1; 5; 6; 7; 8].
Proof.
  apply (parse_ocr_pages_sorted decimal_int (lit "5-8, 1,0 ,1")).
  vm_compute. reflexivity.
Defined.

(** X18: a comma composes two page strings: the
    string [a,b] is parsed to the sorted union of what [a] and [b] are
    parsed to, and it is refused with the exception of [a], or else of
    [b], when one of them is refused. *)
Theorem parse_ocr_pages_comma (py_int : str -> str + Z) (a b : str) :
  parse_ocr_pages py_int (a ++ lit "," ++ b) =
  rbind (parse_ocr_pages py_int a) (fun la =>
  rbind (parse_ocr_pages py_int b) (fun lb =>
  Return (sorted (list_to_set la ∪ list_to_set lb)))).
Proof.
  rewrite !parse_loop. change (lit "," ++ b) with (COMMA :: b).
  rewrite split_app, parts_loop_app.
  destruct (parts_loop py_int (split COMMA a) ∅) as [pa|e|];
    try reflexivity.
  cbn [rbind]. rewrite parts_loop_union.
  destruct (parts_loop py_int (split COMMA b) ∅) as [pb|e|];
    try reflexivity.
  cbn [rbind]. now rewrite !list_to_set_sorted.
Qed.

(** X19: when [parse_ocr_pages] refuses a string, the
    exception is a [ValueError] whose message quotes one of the parts
    between the commas, trimmed and not empty, and ends with the hint
    on the format; the words [invalid literal] of [int] are never in the
    detail it gives. *)
Theorem parse_ocr_pages_error (py_int : str -> str + Z)
    (pages_str : str) (e : exn) :
  parse_ocr_pages py_int pages_str = Raise e ->
  exists part detail,
    In part (List.map strip (split COMMA pages_str)) /\ part <> []
    /\ occurs (lit "invalid literal") detail = false
    /\ e = ValueError (format_error part detail).
Proof.
  rewrite parse_loop.
  destruct (parts_loop py_int (split COMMA pages_str) ∅) as [pages|e'|] eqn:E;
    try discriminate.
  cbn [rbind]. intros [= <-]. exact (parts_loop_raises py_int _ _ _ E).
Qed.

Lemma parse_ocr_pages_error_witness :
  exists part detail,
    In part (List.map strip (split COMMA (lit "0, 1x ,2"))) /\ part <> []
    /\ occurs (lit "invalid literal") detail = false
    /\ ValueError (format_error (lit "1x")
                     (lit "contains non-numeric characters"))
       = ValueError (format_error part detail).
Proof.
  apply (parse_ocr_pages_error decimal_int (lit "0, 1x ,2")).
  vm_compute. reflexivity.
Defined.

(** X20: round trip: a list of entries, single pages
    and ranges in order, written with [str] and joined by commas, is
    parsed to the increasing list of exactly the pages the entries name,
    when [int] reads the numbers back. *)
Theorem parse_ocr_pages_round_trip (py_int : str -> str + Z)
    (items : list item) :
  Forall (well_read py_int) items ->
  exists l,
    parse_ocr_pages py_int (join (lit ",") (List.map render items)) = Return l
    /\ increasing l
    /\ forall q, In q l <-> exists it, In it items /\ names it q.
Proof.
  intros Hall. destruct items as [|it items].
  - exists []. repeat split; [constructor | intros [] |].
    now intros (it & [] & _).
  - rewrite parse_loop. change (lit ",") with [COMMA].
    rewrite split_join; [|discriminate|].
    + destruct (parts_loop_render py_int (it :: items) ∅ Hall)
        as (new & -> & Hnew).
      cbn [rbind]. eexists. split; [reflexivity|].
      split; [apply sorted_increasing|]. intros q.
      now rewrite In_sorted, (left_id_L ∅ (∪)), Hnew.
    + apply List.Forall_forall. intros p Hp.
      apply in_map_iff in Hp as (it' & <- & _). apply render_free.
Qed.

Lemma parse_ocr_pages_round_trip_witness :
  exists l,
    parse_ocr_pages decimal_int
      (join (lit ",") (List.map render [Range 5 8; Single 1; Range 0 1]))
    = Return l
    /\ increasing l
    /\ forall q, In q l <->
         exists it, In it [Range 5 8; Single 1; Range 0 1] /\ names it q.
Proof.
  apply (parse_ocr_pages_round_trip decimal_int).
  repeat constructor.
Defined.

(** X21: a range whose start is above its end is
    refused: the exception is a [ValueError] that quotes the range and
    says [Invalid range: start (a) > end (b)]. *)
Theorem parse_ocr_pages_reversed_range (py_int : str -> str + Z)
    (a b : nat) :
  py_int (str_of_nat a) = inr (Z.of_nat a) ->
  py_int (str_of_nat b) = inr (Z.of_nat b) ->
  (b < a)%nat ->
  parse_ocr_pages py_int (render (Range a b)) =
  Raise (ValueError
           (format_error (render (Range a b))
              (lit "Invalid range: start (" ++ str_of_nat a
               ++ lit ") > end (" ++ str_of_nat b ++ lit ")"))).
Proof.
  intros Ha Hb Hab. rewrite parse_loop, split_free by apply render_free.
  cbn [parts_loop]. rewrite strip_render.
  destruct (render (Range a b)) as [|c s] eqn:E;
    [now apply render_nonempty in E|].
  cbn [truthy negb]. rewrite <- E. unfold try_body.
  rewrite occurs_range, split_range. unfold to_int. rewrite Ha, Hb.
  cbn [rbind].
  destruct (Z.ltb_spec (Z.of_nat a) 0) as [?|_]; [lia|].
  destruct (Z.ltb_spec (Z.of_nat b) 0) as [?|_]; [lia|]. cbn [orb].
  destruct (Z.gtb_spec (Z.of_nat a) (Z.of_nat b)) as [_|?]; [|lia].
  cbn [except_value_error].
  change (str_of_int (Z.of_nat a)) with (str_of_nat a).
  change (str_of_int (Z.of_nat b)) with (str_of_nat b).
  replace (occurs (lit "invalid literal")
             (lit "Invalid range: start (" ++ str_of_nat a
              ++ lit ") > end (" ++ str_of_nat b ++ lit ")"))
    with false; [reflexivity|].
  symmetry.
  change (lit "invalid literal")
    with (105%N :: List.tl (lit "invalid literal")).
  let x := eval vm_compute in (lit "Invalid range: start (") in
  change (lit "Invalid range: start (") with x.
  let x := eval vm_compute in (lit ") > end (") in
  change (lit ") > end (") with x.
  set (sub := List.tl (lit "invalid literal")).
  cbn [app occurs startswith N.eqb Pos.eqb andb orb].
  rewrite occurs_after_digits by (apply str_of_nat_digits || lia).
  cbn [app occurs startswith N.eqb Pos.eqb andb orb].
  rewrite occurs_after_digits by (apply str_of_nat_digits || lia).
  reflexivity.
Qed.

Lemma parse_ocr_pages_reversed_range_witness :
  parse_ocr_pages decimal_int (render (Range 8 5)) =
  Raise (ValueError
           (format_error (render (Range 8 5))
              (lit "Invalid range: start (" ++ str_of_nat 8
               ++ lit ") > end (" ++ str_of_nat 5 ++ lit ")"))).
Proof.
  apply (parse_ocr_pages_reversed_range decimal_int 8 5);
    [reflexivity | reflexivity | lia].
Defined.

(** X22: a part with two hyphens or more, such as
    [1-2-3] or [-1-3], is refused with [Range must be in 'start-end'
    format.], before [int] is asked. *)
Theorem parse_ocr_pages_hyphens (py_int : str -> str + Z)
    (pages_str a b c : str) :
  ~ In COMMA pages_str ->
  strip pages_str = a ++ lit "-" ++ b ++ lit "-" ++ c ->
  parse_ocr_pages py_int pages_str =
  Raise (ValueError
           (format_error (strip pages_str)
              (lit "Range must be in 'start-end' format."))).
Proof.
  intros Hfree Hs. rewrite parse_loop, split_free by assumption.
  cbn [parts_loop].
  assert (Hocc : occurs (lit "-") (strip pages_str) = true).
  { rewrite occurs_hyphen, Hs. change (lit "-") with [HYPHEN].
    rewrite existsb_app. cbn [app existsb]. rewrite N.eqb_refl.
    now rewrite orb_true_r. }
  assert (Hlen : (3 <= length (split HYPHEN (strip pages_str)))%nat).
  { rewrite Hs. change (lit "-") with [HYPHEN].
    change ([HYPHEN] ++ b ++ [HYPHEN] ++ c)
      with (HYPHEN :: (b ++ HYPHEN :: c)).
    rewrite !split_app, !length_app.
    destruct (split_nonempty HYPHEN a) as (? & ? & ->).
    destruct (split_nonempty HYPHEN b) as (? & ? & ->).
    destruct (split_nonempty HYPHEN c) as (? & ? & ->).
    simpl. lia. }
  destruct (strip pages_str) as [|x s] eqn:E; [discriminate|].
  cbn [truthy negb]. unfold try_body. rewrite Hocc.
  destruct (split HYPHEN (x :: s)) as [|p1 [|p2 [|p3 ps]]];
    simpl in Hlen; try lia; reflexivity.
Qed.

Lemma parse_ocr_pages_hyphens_witness :
  parse_ocr_pages decimal_int (lit " -1-3 ") =
  Raise (ValueError
           (format_error (strip (lit " -1-3 "))
              (lit "Range must be in 'start-end' format."))).
Proof.
  apply (parse_ocr_pages_hyphens decimal_int (lit " -1-3 ")
           [] (lit "1") (lit "3")).
  - vm_compute. intros H. repeat (destruct H as [H|H]; [discriminate|]).
    exact H.
  - reflexivity.
Defined.

(* ===================================================================== *)
(** ** The configuration and its file *)
(* ===================================================================== *)

Section ConfigFacts.

Lemma str_eqb_eq (a b : str) : str_eqb a b = true <-> a = b.
Proof.
  revert b. induction a as [|x a IH]; intros [|y b]; simpl;
    try (split; [discriminate | congruence]); [tauto|].
  rewrite andb_true_iff, N.eqb_eq, IH. split.
  - now intros [-> ->].
  - now intros [= -> ->].
Qed.

Lemma str_eqb_refl (a : str) : str_eqb a a = true.
Proof. now apply str_eqb_eq. Qed.

Lemma str_eqb_neq (a b : str) : str_eqb a b = false <-> a <> b.
Proof.
  rewrite <- str_eqb_eq. destruct (str_eqb a b); split; congruence.
Qed.

(** A [dict] kept as its items is read like the map of the items. *)
Lemma dict_lookup_map (d : list (str * json)) (key : str) :
  dict_lookup d key = (list_to_map d : config) !! key.
Proof.
  induction d as [|[k v] d IH]; [reflexivity|].
  cbn [dict_lookup list_to_map foldr fst snd].
  destruct (str_eqb k key) eqn:E.
  - apply str_eqb_eq in E as ->. now rewrite lookup_insert_eq.
  - apply str_eqb_neq in E. now rewrite lookup_insert_ne.
Qed.

Lemma saved_without_key (c : config) :
  holds_api_key (Holds (config_to_save c)) = false.
Proof.
  unfold holds_api_key, config_to_save.
  now rewrite dict_lookup_map, list_to_map_to_list, lookup_delete_eq.
Qed.

Lemma save_config_keeps (w : write) (c : config) (f : file) :
  holds_api_key f = false -> holds_api_key (save_config w c f) = false.
Proof.
  intros Hf. destruct w; cbn [save_config];
    [apply saved_without_key | exact Hf | reflexivity].
Qed.

(** *** The list of recent folders *)

Lemma existsb_names (folder_path : str) (names : list str) :
  existsb (fun x => json_eq_str x folder_path) (List.map JStr names)
  = existsb (fun n => str_eqb n folder_path) names.
Proof. induction names as [|n names IH]; simpl; [|rewrite IH]; reflexivity. Qed.

Lemma filter_absent (folder_path : str) (names : list str) :
  folder_path ∉ names ->
  List.filter (fun n => negb (str_eqb n folder_path)) names = names.
Proof.
  induction names as [|n names IH]; simpl; intros H; [reflexivity|].
  apply not_elem_of_cons in H as [Hne H].
  destruct (str_eqb n folder_path) eqn:E.
  - apply str_eqb_eq in E. congruence.
  - cbn [negb]. now rewrite IH.
Qed.

Lemma filter_sublist {A} (f : A -> bool) (l : list A) :
  List.filter f l `sublist_of` l.
Proof.
  induction l as [|x l IH]; simpl; [constructor|].
  destruct (f x); now constructor.
Qed.

(** In a list without repetition, removing the first occurrence of a
    path when there is one leaves the other paths. *)
Lemma remove_names (folder_path : str) (names : list str) :
  NoDup names ->
  (if existsb (fun n => str_eqb n folder_path) names
   then remove folder_path (List.map JStr names)
   else List.map JStr names)
  = List.map JStr
      (List.filter (fun n => negb (str_eqb n folder_path)) names).
Proof.
  induction 1 as [|n names Hn Hnd IH]; [reflexivity|].
  cbn [existsb List.map remove List.filter json_eq_str].
  destruct (str_eqb n folder_path) eqn:E; cbn [orb negb].
  - apply str_eqb_eq in E as ->. now rewrite filter_absent.
  - cbn [List.map].
    destruct (existsb (fun n => str_eqb n folder_path) names);
      now rewrite <- IH.
Qed.

Lemma kept_names_NoDup (folder_path : str) (names : list str) :
  NoDup names ->
  NoDup
    (take 5 (folder_path
             :: List.filter (fun n => negb (str_eqb n folder_path)) names)).
Proof.
  intros Hnd. eapply sublist_NoDup; [|apply sublist_take].
  apply NoDup_cons. split.
  - intros Hin. apply list_elem_of_In, filter_In in Hin as [_ Hne].
    now rewrite str_eqb_refl in Hne.
  - eapply sublist_NoDup; [exact Hnd | apply filter_sublist].
Qed.

Variable not_a_list : str -> json -> exn.

Lemma add_recent_folder_step (w : write) (folder_path : str)
    (names : list str) (st : config * file) :
  recent_are st.1 names -> NoDup names -> folder_path <> [] ->
  add_recent_folder not_a_list w true folder_path st =
  let names' :=
    take 5 (folder_path
            :: List.filter (fun n => negb (str_eqb n folder_path)) names) in
  let c := <[RECENT_FOLDERS := JList (List.map JStr names')]> st.1 in
  Return (c, save_config w c st.2).
Proof.
  unfold recent_are, add_recent_folder. intros Hc Hnd Hf.
  destruct folder_path as [|x p]; [congruence|].
  cbn [truthy negb orb]. rewrite Hc. cbn [default from_option id].
  rewrite existsb_names, (remove_names (x :: p) names Hnd).
  cbv zeta. change (JStr (x :: p) :: List.map JStr ?l)
    with (List.map JStr ((x :: p) :: l)).
  now rewrite firstn_map.
Qed.

Lemma add_recent_folder_skips (w : write) (isdir : bool)
    (folder_path : str) (st : config * file) :
  folder_path = [] \/ isdir = false ->
  add_recent_folder not_a_list w isdir folder_path st = Return st.
Proof.
  unfold add_recent_folder. intros [-> | ->]; [reflexivity|].
  now rewrite orb_true_r.
Qed.

Lemma add_recent_folder_file (w : write) (isdir : bool)
    (folder_path : str) (st st' : config * file) :
  add_recent_folder not_a_list w isdir folder_path st = Return st' ->
  st' = st \/ exists c, st'.2 = save_config w c st.2.
Proof.
  unfold add_recent_folder.
  destruct (negb (truthy folder_path) || negb isdir);
    [intros [= <-]; now left|].
  destruct (default (JList []) (st.1 !! RECENT_FOLDERS)); try discriminate.
  intros [= <-]. right. eexists. reflexivity.
Qed.

End ConfigFacts.

(* ===================================================================== *)
(** ** Properties of ConfigManager *)
(* ===================================================================== *)

(** X23: round trip: after a save that
    writes the file, [load_config] gives the configuration that was
    saved, with the defaults for the keys it lacks, except for the API
    key, which is the empty string whatever it was. *)
Theorem saved_config_loads_back (c : config) (f : file) :
  load_config (save_config Written c f)
  = <[API_KEY := JStr []]> (c ∪ default_config).
Proof.
  cbn [save_config config_to_save load_config].
  rewrite list_to_map_to_list. apply map_eq. intros key.
  destruct (decide (API_KEY = key)) as [<-|Hne].
  - now rewrite !lookup_insert_eq.
  - now rewrite !lookup_insert_ne, !lookup_union, lookup_delete_ne.
Qed.

(** X24: the API key is
    never written: when the file has no entry for the API key, it has
    none after any calls of [update_config] and [add_recent_folder],
    whatever the values, also for the key itself, and whatever the
    writing does. *)
Theorem api_key_never_written (not_a_list : str -> json -> exn)
    (calls : list (call * write)) (st st' : config * file) :
  holds_api_key st.2 = false ->
  run_calls not_a_list calls st = Return st' ->
  holds_api_key st'.2 = false.
Proof.
  revert st. induction calls as [|[[key value|isdir folder_path] w] rest IH];
    intros st Hst; cbn [run_calls].
  - now intros [= <-].
  - apply IH. unfold update_config. cbn [snd].
    destruct (negb (str_eqb key API_KEY)); [|exact Hst].
    now apply save_config_keeps.
  - destruct (add_recent_folder not_a_list w isdir folder_path st)
      as [st1|e|] eqn:E; try discriminate.
    cbn [rbind]. apply IH.
    destruct (add_recent_folder_file _ _ _ _ _ _ E) as [->|(c & ->)];
      [exact Hst | now apply save_config_keeps].
Qed.

Lemma api_key_never_written_witness :
  holds_api_key
    (save_config Written
       (<[lit "ocr_pages" := JStr (lit "2-4")]>
          (<[API_KEY := JStr (lit "sk-secret")]> default_config))
       Missing)
  = false.
Proof.
  apply (api_key_never_written plain_not_a_list
           [(UpdateConfig API_KEY (JStr (lit "sk-secret")), Written);
            (UpdateConfig (lit "ocr_pages") (JStr (lit "2-4")), Written)]
           (default_config, Missing)
           (<[lit "ocr_pages" := JStr (lit "2-4")]>
              (<[API_KEY := JStr (lit "sk-secret")]> default_config),
            save_config Written
              (<[lit "ocr_pages" := JStr (lit "2-4")]>
                 (<[API_KEY := JStr (lit "sk-secret")]> default_config))
              Missing));
    reflexivity.
Defined.

(** X25: for a list of recent folders without
    repetition, a call with a folder that exists puts the folder first,
    keeps the other folders in their order, the folder itself no second
    time, cuts the list to five, and saves the configuration. *)
Theorem add_recent_folder_moves_first (not_a_list : str -> json -> exn)
    (w : write) (folder_path : str) (names : list str)
    (st : config * file) :
  recent_are st.1 names -> NoDup names -> folder_path <> [] ->
  exists st',
    add_recent_folder not_a_list w true folder_path st = Return st'
    /\ recent_are st'.1
         (take 5 (folder_path
                  :: List.filter (fun n => negb (str_eqb n folder_path))
                       names))
    /\ st'.2 = save_config w st'.1 st.2.
Proof.
  intros Hc Hnd Hf. rewrite (add_recent_folder_step _ _ _ names) by assumption.
  eexists. split; [reflexivity|]. cbn [fst snd]. split; [|reflexivity].
  apply lookup_insert_eq.
Qed.

Lemma add_recent_folder_moves_first_witness :
  exists st',
    add_recent_folder plain_not_a_list Written true (lit "/b")
      (<[RECENT_FOLDERS := JList (List.map JStr [lit "/a"; lit "/b"; lit "/c"])]>
         default_config, Missing)
    = Return st'
    /\ recent_are st'.1
         (take 5 (lit "/b"
                  :: List.filter (fun n => negb (str_eqb n (lit "/b")))
                       [lit "/a"; lit "/b"; lit "/c"]))
    /\ st'.2 = save_config Written st'.1 Missing.
Proof.
  apply (add_recent_folder_moves_first plain_not_a_list Written (lit "/b")
           [lit "/a"; lit "/b"; lit "/c"]
           (<[RECENT_FOLDERS := JList (List.map JStr [lit "/a"; lit "/b"; lit "/c"])]>
              default_config, Missing)).
  - apply lookup_insert_eq.
  - refine (bool_decide_unpack _ _). vm_compute. exact I.
  - discriminate.
Defined.

(** X26: invariant of the recent
    folders: when they are a list of at most five paths without
    repetition, as in the default configuration, then any calls of
    [add_recent_folder] and of [update_config] for other keys return and
    leave a list of at most five paths without repetition. *)
Theorem recent_folders_invariant (not_a_list : str -> json -> exn)
    (calls : list (call * write)) (st : config * file)
    (names : list str) :
  recent_are st.1 names -> NoDup names -> (length names <= 5)%nat ->
  Forall keeps_recent calls ->
  exists st' names',
    run_calls not_a_list calls st = Return st'
    /\ recent_are st'.1 names' /\ NoDup names'
    /\ (length names' <= 5)%nat.
Proof.
  intros Hc Hnd Hlen Hcalls. revert st names Hc Hnd Hlen.
  induction Hcalls as [|[[key value|isdir folder_path] w] rest Hcall _ IH];
    intros st names Hc Hnd Hlen; cbn [run_calls].
  - exists st, names. now repeat split.
  - apply (IH _ names); try assumption.
    unfold recent_are, update_config. cbn [fst].
    rewrite lookup_insert_ne; [exact Hc|]. exact Hcall.
  - destruct folder_path as [|x p].
    { rewrite add_recent_folder_skips by now left.
      cbn [rbind]. now apply (IH _ names). }
    destruct isdir.
    2:{ rewrite add_recent_folder_skips by now right.
        cbn [rbind]. now apply (IH _ names). }
    rewrite (add_recent_folder_step _ _ _ names) by (assumption || discriminate).
    cbv zeta. cbn [rbind]. eapply IH.
    + unfold recent_are. cbn [fst]. apply lookup_insert_eq.
    + now apply kept_names_NoDup.
    + apply firstn_le_length.
Qed.

Lemma recent_folders_invariant_witness :
  exists st' names',
    run_calls plain_not_a_list
      [(AddRecentFolder true (lit "/a"), Written);
       (UpdateConfig (lit "folder_path") (JStr (lit "/a")), Broken);
       (AddRecentFolder false (lit "/gone"), Written);
       (AddRecentFolder true (lit "/b"), NotOpened);
       (AddRecentFolder true (lit "/a"), Written)]
      (default_config, Missing)
    = Return st'
    /\ recent_are st'.1 names' /\ NoDup names'
    /\ (length names' <= 5)%nat.
Proof.
  apply (recent_folders_invariant plain_not_a_list _
           (default_config, Missing) []).
  - reflexivity.
  - constructor.
  - simpl. lia.
  - repeat constructor. vm_compute. discriminate.
Defined.

(* ===================================================================== *)
(** ** Failed chunks and the counts of the worker *)
(* ===================================================================== *)


